(** * Truncated_Hash: a hash decorator that truncates a digest to a bit length

    Shallow embedding of [src/lib/hash/trunc_hash/trunc_hash.cpp] (Botan).

    - [size_t] is a 64-bit unsigned integer, modelled as [Z] with the
      wrap-around written out ([SizeT]).
    - [uint8_t] is a [Z] reduced modulo 256; [int] expressions are written
      in [Z] (the values that occur stay far inside the range of [int]).
    - The scratch buffer is a [secure_vector] obtained from an allocator
      ([Allocator]) that may refuse a request; the constructor asks for it
      before it checks its arguments.
    - The wrapped hash is held through a [std::unique_ptr<HashFunction>]:
      hash objects live in a heap ([gmap loc H]) and the adapter stores the
      address.  Member functions are computations in a state-and-failure
      monad over that heap; a thrown exception and undefined behaviour are
      distinct failures.
    - [HashFunction] is the abstract interface the adapter consumes; it is a
      type class, and a small concrete checksum ([Fletcher16]) instantiates
      it so that every statement can be run on concrete data. *)

From Stdlib Require Import ZArith String.
From stdpp Require Import base option list gmap strings pretty.

Local Open Scope Z_scope.

(** ** Machine integers *)

Module SizeT.

Definition bits : Z := 64.
Definition modulus : Z := 2 ^ bits.
Definition max : Z := modulus - 1.

Definition wrap (x : Z) : Z := x mod modulus.

Definition add (a b : Z) : Z := wrap (a + b).
Definition sub (a b : Z) : Z := wrap (a - b).
Definition mul (a b : Z) : Z := wrap (a * b).
Definition div (a b : Z) : Z := a / b.
Definition rem (a b : Z) : Z := a mod b.

(** [x] is a value of type [size_t]. *)
Definition valid (x : Z) : Prop := 0 <= x < modulus.

End SizeT.

(** Conversion to [uint8_t]. *)
Definition to_uint8 (x : Z) : Z := x mod 256.

Definition is_uint8 (x : Z) : Prop := 0 <= x < 256.

(** ** Failures *)

(** Modelled from the spec: the exception types of [botan/exceptn.h] and the
    checking macros of [botan/assert.h] are not part of the sources at hand.
    [BOTAN_ARG_CHECK] reports a rejected argument ([Invalid_Argument], the
    spec's [InvalidConfiguration]); [BOTAN_ASSERT_NOMSG] and
    [BOTAN_ASSERT_NONNULL] report a broken internal assumption
    ([Internal_Error]).  [Bad_Alloc] is the standard library's failure to
    allocate a vector ([std::bad_alloc], or [std::length_error] beyond the
    vector's maximal size). *)
Inductive Exception : Type :=
| Invalid_Argument (msg : string)
| Internal_Error (msg : string)
| Bad_Alloc.

Inductive outcome (A : Type) : Type :=
| Ok (a : A)
| Throw (e : Exception)
| Undefined.

Arguments Ok {A} a.
Arguments Throw {A} e.
Arguments Undefined {A}.

(** ** Heap of hash objects *)

Definition loc : Type := positive.

(** Computations over a heap whose cells hold values of type [S]. *)
Definition M (S A : Type) : Type := gmap loc S -> outcome (A * gmap loc S).

Definition M_ret {S A} (a : A) : M S A := fun σ => Ok (a, σ).

Definition M_bind {S A B} (f : A -> M S B) (m : M S A) : M S B :=
  fun σ =>
    match m σ with
    | Ok (a, σ') => f a σ'
    | Throw e => Throw e
    | Undefined => Undefined
    end.

#[global] Instance M_mret {S} : MRet (M S) := @M_ret S.
#[global] Instance M_mbind {S} : MBind (M S) := @M_bind S.

Definition throw {S A} (e : Exception) : M S A := fun _ => Throw e.
Definition undefined {S A} : M S A := fun _ => Undefined.

(** [*p] for reading: dereferencing a dangling pointer is undefined. *)
Definition deref {S} (p : loc) : M S S :=
  fun σ => match σ !! p with
           | Some h => Ok (h, σ)
           | None => Undefined
           end.

(** [*p = h]. *)
Definition store {S} (p : loc) (h : S) : M S unit :=
  fun σ => match σ !! p with
           | Some _ => Ok (tt, <[p := h]> σ)
           | None => Undefined
           end.

(** [std::make_unique]: a new object at an address not in use. *)
Definition alloc {S} (h : S) : M S loc :=
  fun σ => let p := fresh (dom σ) in Ok (p, <[p := h]> σ).

Definition BOTAN_ARG_CHECK {S} (cond : bool) (msg : string) : M S unit :=
  if cond then mret tt else throw (Invalid_Argument msg).

Definition BOTAN_ASSERT_NOMSG {S} (cond : bool) : M S unit :=
  if cond then mret tt else throw (Internal_Error "assertion failed").

(** ** The hash capability *)

(** Modelled from the spec: the interface [HashFunction]
    ([Buffered_Computation]) is declared in headers that are not part of the
    sources at hand.  A value of type [H] is the state of one hash object;
    [hf_final_result] returns the digest together with the state the object
    is left in. *)
Class HashFunction (H : Type) : Type := {
  hf_update : H -> list Z -> H;
  hf_final_result : H -> list Z * H;
  hf_output_length : H -> Z;
  hf_name : H -> string;
  hf_new_object : H -> H;
  hf_copy_state : H -> H;
  hf_clear : H -> H
}.

(** The messages of the constructor's two argument checks. *)
Definition msg_empty : string :=
  "Truncating a hash to empty does not make sense".

Definition msg_too_short : string :=
  "Underlying hash function does not produce enough bits for truncation".

(** Modelled from the spec: [fmt] of [botan/internal/fmt.h] is not part of
    the sources at hand.  [fmt("Truncated({},{})", inner, bits)] puts the
    inner name and the decimal digits of [bits] into the pattern. *)
Definition fmt_Truncated (inner : string) (bits : Z) : string :=
  ("Truncated(" +:+ inner +:+ "," +:+ pretty bits +:+ ")")%string.

(** The adapter's fields. *)
Record Truncated_Hash : Type := {
  m_hash : loc;
  m_output_bits : Z;
  m_buffer : list Z
}.

(** [zeroise(vec)]: every byte becomes zero, the size is kept. *)
Definition zeroise (buf : list Z) : list Z := replicate (length buf) 0.

Section Calls.

Context {H : Type} {HF : HashFunction H}.

(** Virtual calls through the owning pointer. *)

Definition call_update (p : loc) (input : list Z) : M H unit :=
  h ← deref p; store p (hf_update h input).

Definition call_output_length (p : loc) : M H Z :=
  h ← deref p; mret (hf_output_length h).

Definition call_name (p : loc) : M H string :=
  h ← deref p; mret (hf_name h).

Definition call_clear (p : loc) : M H unit :=
  h ← deref p; store p (hf_clear h).

Definition call_copy_state (p : loc) : M H loc :=
  h ← deref p; alloc (hf_copy_state h).

Definition call_new_object (p : loc) : M H loc :=
  h ← deref p; alloc (hf_new_object h).

(** Modelled from the spec: [Buffered_Computation::final(buffer)] is not
    part of the sources at hand.  It needs a buffer of at least the native
    output length, writes the digest at its start and leaves the hash
    object reset. *)
Definition call_final (p : loc) (buf : list Z) : M H (list Z) :=
  h ← deref p;
  _ ← BOTAN_ARG_CHECK (hf_output_length h <=? Z.of_nat (length buf))
        "provided output buffer has insufficient capacity";
  let '(digest, h') := hf_final_result h in
  _ ← store p h';
  mret (digest ++ drop (length digest) buf).

End Calls.

(** ** The allocator

    [secure_vector<uint8_t>(n)] asks the allocator for [n] bytes and throws
    when it cannot have them.  Whether a request of a given size is served
    is the environment's answer: it is a parameter of the model, and equal
    requests get equal answers. *)
Class Allocator : Type := {
  can_allocate : Z -> bool
}.

(** [secure_vector<uint8_t>(n)]: [n] zero bytes, or no vector at all. *)
Definition secure_vector {S : Type} {AL : Allocator} (n : Z) : M S (list Z) :=
  if can_allocate n then mret (replicate (Z.to_nat n) 0) else throw Bad_Alloc.


(** ** The adapter's member functions *)

Section Truncated_Hash.

Context {H : Type} {HF : HashFunction H} {AL : Allocator}.

(** [Truncated_Hash::output_length]. *)
Definition output_length (this : Truncated_Hash) : Z :=
  SizeT.div (SizeT.add (m_output_bits this) 7) 8.

(** [Truncated_Hash::add_data]. *)
Definition add_data (this : Truncated_Hash) (input : list Z) : M H unit :=
  call_update (m_hash this) input.

(** [const uint8_t bits_in_last_byte = ((m_output_bits - 1) % 8) + 1]. *)
Definition bits_in_last_byte (output_bits : Z) : Z :=
  to_uint8 (SizeT.add (SizeT.rem (SizeT.sub output_bits 1) 8) 1).

(** [const uint8_t bitmask = ~((1 << (8 - bits_in_last_byte)) - 1)],
    evaluated in [int] and converted to [uint8_t]. *)
Definition bitmask (bits_in_last : Z) : Z :=
  to_uint8 (Z.lnot (Z.shiftl 1 (8 - bits_in_last) - 1)).

(** [std::copy_n(src.begin(), n, out.data())]: reading past [src] or
    writing past [out] is undefined. *)
Definition copy_n (src : list Z) (n : Z) (out : list Z) : M H (list Z) :=
  if (n <=? Z.of_nat (length src)) && (n <=? Z.of_nat (length out))
  then mret (take (Z.to_nat n) src ++ drop (Z.to_nat n) out)
  else undefined.

(** [out.back() &= mask]: undefined on an empty span. *)
Definition and_back (out : list Z) (mask : Z) : M H (list Z) :=
  match last out with
  | Some x => mret (<[Nat.pred (length out) := to_uint8 (Z.land x mask)]> out)
  | None => undefined
  end.

(** [Truncated_Hash::final_result].  [out] is the caller's span on entry;
    the result is the adapter after the call and the span's contents. *)
Definition final_result (this : Truncated_Hash) (out : list Z)
  : M H (Truncated_Hash * list Z) :=
  n ← call_output_length (m_hash this);
  _ ← BOTAN_ASSERT_NOMSG (m_output_bits this <=? SizeT.mul n 8);
  buf ← call_final (m_hash this) (m_buffer this);
  let bytes := output_length this in
  out1 ← copy_n buf bytes out;
  let this' := {| m_hash := m_hash this;
                  m_output_bits := m_output_bits this;
                  m_buffer := zeroise buf |} in
  let b := bits_in_last_byte (m_output_bits this) in
  out2 ← and_back out1 (bitmask b);
  mret (this', out2).

(** The constructor.  The member initialisers run first: [m_buffer] is
    sized by a call through [m_hash] and allocated, so a null pointer is
    dereferenced before [BOTAN_ASSERT_NONNULL] is reached, and a buffer
    that cannot be allocated ends the construction before either argument
    check. *)
Definition Truncated_Hash_new (hash : option loc) (bits : Z)
  : M H Truncated_Hash :=
  match hash with
  | None => undefined
  | Some p =>
      n ← call_output_length p;
      buf ← secure_vector n;
      let this := {| m_hash := p;
                     m_output_bits := bits;
                     m_buffer := buf |} in
      _ ← BOTAN_ARG_CHECK (0 <? bits) msg_empty;
      n' ← call_output_length p;
      _ ← BOTAN_ARG_CHECK (bits <=? SizeT.mul n' 8) msg_too_short;
      mret this
  end.

(** [Truncated_Hash::name]. *)
Definition name (this : Truncated_Hash) : M H string :=
  inner ← call_name (m_hash this);
  mret (fmt_Truncated inner (m_output_bits this)).

(** [Truncated_Hash::new_object]. *)
Definition new_object (this : Truncated_Hash) : M H Truncated_Hash :=
  p ← call_new_object (m_hash this);
  Truncated_Hash_new (Some p) (m_output_bits this).

(** [Truncated_Hash::copy_state]. *)
Definition copy_state (this : Truncated_Hash) : M H Truncated_Hash :=
  p ← call_copy_state (m_hash this);
  Truncated_Hash_new (Some p) (m_output_bits this).

(** [Truncated_Hash::clear]. *)
Definition clear (this : Truncated_Hash) : M H unit :=
  call_clear (m_hash this).

(** Feeding a message in chunks: one [add_data] per chunk. *)
Fixpoint feed (this : Truncated_Hash) (chunks : list (list Z)) : M H unit :=
  match chunks with
  | [] => mret tt
  | c :: cs => _ ← add_data this c; feed this cs
  end.

(** A caller's use of one adapter: any sequence of these calls. *)
Inductive call : Type :=
| Call_add_data (input : list Z)
| Call_final (out : list Z)
| Call_clear.

Definition do_call (this : Truncated_Hash) (c : call) : M H Truncated_Hash :=
  match c with
  | Call_add_data input => _ ← add_data this input; mret this
  | Call_final out => r ← final_result this out; mret (fst r)
  | Call_clear => _ ← clear this; mret this
  end.

Fixpoint do_calls (this : Truncated_Hash) (cs : list call)
  : M H Truncated_Hash :=
  match cs with
  | [] => mret this
  | c :: cs' => this' ← do_call this c; do_calls this' cs'
  end.

(** [final_result] is handed a span of [output_length] bytes. *)
Definition call_ok (this : Truncated_Hash) (c : call) : Prop :=
  match c with
  | Call_final out => Z.of_nat (length out) = output_length this
  | _ => True
  end.

(** The bytes a hash object stands for after a call, given those it
    stood for before. *)
Definition absorbed_after (msg : list Z) (c : call) : list Z :=
  match c with
  | Call_add_data input => msg ++ input
  | Call_final _ => []
  | Call_clear => []
  end.

End Truncated_Hash.

(** ** A concrete hash capability: Fletcher-16

    A two-byte checksum with the shape of an incremental hash.  The state is
    the pair of running sums; [final_result] emits them and starts over. *)

Module Fletcher16.

Definition state : Type := (Z * Z)%type.

Definition init : state := (0, 0).

Definition step (s : state) (x : Z) : state :=
  let a := (fst s + x) mod 255 in (a, (snd s + a) mod 255).

Definition update (s : state) (input : list Z) : state :=
  fold_left step input s.

Definition emit (s : state) : list Z := [snd s; fst s].

Definition digest (msg : list Z) : list Z := emit (update init msg).

#[global] Instance hash : HashFunction state := {|
  hf_update := update;
  hf_final_result := fun s => (emit s, init);
  hf_output_length := fun _ => 2;
  hf_name := fun _ => "Fletcher-16"%string;
  hf_new_object := fun _ => init;
  hf_copy_state := fun s => s;
  hf_clear := fun _ => init
|}.

(** [s] is the state of an object that absorbed [msg] since it was last
    reset. *)
Definition absorbed (s : state) (msg : list Z) : Prop := s = update init msg.

End Fletcher16.

(** ** The contract of the hash capability

    What the adapter relies on from the object it wraps: the object computes
    a fixed function [digest] of the bytes absorbed since the last reset, of
    a fixed length [olen] whose bit count is a [size_t].  [absorbed h msg]
    relates an object state to the bytes it stands for. *)

Class HashFunctionSpec {H : Type} `{HashFunction H}
    (olen : Z) (digest : list Z -> list Z) (absorbed : H -> list Z -> Prop)
  : Prop := {
  hs_olen_nonneg : 0 <= olen;
  hs_olen_bits : olen * 8 <= SizeT.max;
  hs_output_length : forall h msg, absorbed h msg -> hf_output_length h = olen;
  hs_digest_length : forall msg, Z.of_nat (length (digest msg)) = olen;
  hs_digest_uint8 : forall msg, Forall is_uint8 (digest msg);
  hs_update : forall h msg input,
    absorbed h msg -> absorbed (hf_update h input) (msg ++ input);
  hs_final_digest : forall h msg,
    absorbed h msg -> fst (hf_final_result h) = digest msg;
  hs_final_reset : forall h msg,
    absorbed h msg -> absorbed (snd (hf_final_result h)) [];
  hs_clear : forall h msg, absorbed h msg -> absorbed (hf_clear h) [];
  hs_copy_state : forall h msg, absorbed h msg -> absorbed (hf_copy_state h) msg;
  hs_new_object : forall h msg, absorbed h msg -> absorbed (hf_new_object h) []
}.

(** ** What the adapter is meant to compute *)

(** [ceil(n / 8)]. *)
Definition ceil_div8 (n : Z) : Z := - ((- n) / 8).

(** The mask of the spec: [0xFF << (8 - k)] cut to one byte. *)
Definition spec_mask (k : Z) : Z := Z.land (Z.shiftl 255 (8 - k)) 255.

(** The last byte of [l] ANDed with [mask]; the other bytes as they are. *)
Definition mask_last (mask : Z) (l : list Z) : list Z :=
  match l with
  | [] => []
  | _ => take (Nat.pred (length l)) l ++
         [Z.land (List.last l 0) mask]
  end.

(** The first [ceil(bits / 8)] bytes of [d], the last one masked to the
    [((bits - 1) mod 8) + 1] high bits. *)
Definition truncated (bits : Z) (d : list Z) : list Z :=
  mask_last (spec_mask ((bits - 1) mod 8 + 1))
            (take (Z.to_nat (ceil_div8 bits)) d).

(** The adapter [this] in heap [σ] wraps a live hash object that absorbed
    [msg]; its bit length is within the hash's capacity and its scratch
    buffer has the native length and holds zeros. *)
Definition adapter_inv {H : Type} `{HashFunction H}
    (olen : Z) (absorbed : H -> list Z -> Prop)
    (σ : gmap loc H) (this : Truncated_Hash) (msg : list Z) : Prop :=
  (exists h, σ !! m_hash this = Some h /\ absorbed h msg) /\
  1 <= m_output_bits this <= olen * 8 /\
  m_buffer this = replicate (Z.to_nat olen) 0.

(** The adapter as [final_result] leaves it: same hash object, same bit
    length, scratch buffer of the native length filled with zeros. *)
Definition finalized (olen : Z) (this : Truncated_Hash) : Truncated_Hash :=
  {| m_hash := m_hash this;
     m_output_bits := m_output_bits this;
     m_buffer := replicate (Z.to_nat olen) 0 |}.

(** ** The example program's helper

    [as_span(std::string_view s)]: the bytes of [s] seen as [uint8_t], as
    many as [s.size()]. *)
Definition as_span (s : string) : list Z :=
  (fun c => Z.of_N (Ascii.N_of_ascii c)) <$> list_ascii_of_string s.

(** ** A hash capability with a digest too long for any machine

    Its output length is [2 ^ 61] bytes; only its length is ever looked
    at. *)

Module Wide.

Definition state : Type := unit.

Definition output_bytes : Z := 2 ^ 61.

#[global] Instance hash : HashFunction state := {|
  hf_update := fun s _ => s;
  hf_final_result := fun s => (replicate (Z.to_nat output_bytes) 0, s);
  hf_output_length := fun _ => output_bytes;
  hf_name := fun _ => "Wide"%string;
  hf_new_object := fun s => s;
  hf_copy_state := fun s => s;
  hf_clear := fun s => s
|}.

Definition heap0 : gmap loc state := {[ 1%positive := tt ]}.

End Wide.

(** ** Concrete data

    A heap with one fresh Fletcher-16 object, the adapter the constructor
    builds on it, and a short history of calls. *)

Module Demo.

(** An allocator that serves requests of up to 4 GiB. *)
#[global] Instance allocator : Allocator := {|
  can_allocate := fun n => n <=? 2 ^ 32
|}.

Definition p : loc := 1%positive.

Definition heap0 : gmap loc Fletcher16.state := {[ p := Fletcher16.init ]}.

Definition adapter (bits : Z) : Truncated_Hash :=
{| m_hash := p; m_output_bits := bits; m_buffer := [0; 0] |}.

Definition history : list call := [Call_add_data [1; 2]; Call_add_data [3]].

(** The heap after [history]: the object absorbed [1; 2; 3]. *)
Definition heap1 : gmap loc Fletcher16.state :=
{[ p := Fletcher16.update Fletcher16.init [1; 2; 3] ]}.

(** A second fresh object, in a heap of its own, and its adapter. *)
Definition q : loc := 5%positive.

Definition heap_q0 : gmap loc Fletcher16.state := {[ q := Fletcher16.init ]}.

Definition heap_q1 : gmap loc Fletcher16.state :=
  {[ q := Fletcher16.update Fletcher16.init [1; 2; 3] ]}.

Definition adapter_q (bits : Z) : Truncated_Hash :=
  {| m_hash := q; m_output_bits := bits; m_buffer := [0; 0] |}.

End Demo.

(** * Proofs *)

(** ** Integer facts *)

Lemma size_modulus_eq : SizeT.modulus = 18446744073709551616.
Proof. reflexivity. Qed.

Lemma size_max_eq : SizeT.max = 18446744073709551615.
Proof. reflexivity. Qed.

Lemma size_wrap_small x : SizeT.valid x -> SizeT.wrap x = x.
Proof. unfold SizeT.valid, SizeT.wrap. intros Hx. by apply Z.mod_small. Qed.

Lemma ceil_div8_add7 n : ceil_div8 n = (n + 7) / 8.
Proof. unfold ceil_div8. Z.div_mod_to_equations. lia. Qed.

(** [ceil_div8] is the least number of bytes that hold [n] bits. *)
Lemma ceil_div8_least n k : n <= 8 * k <-> ceil_div8 n <= k.
Proof. unfold ceil_div8. Z.div_mod_to_equations. lia. Qed.

Lemma output_length_in_range this :
  0 <= m_output_bits this <= SizeT.max - 7 ->
  output_length this = ceil_div8 (m_output_bits this).
Proof.
  intros Hb. rewrite size_max_eq in Hb.
  unfold output_length, SizeT.div, SizeT.add.
  rewrite size_wrap_small, ceil_div8_add7; [done|].
  unfold SizeT.valid. rewrite size_modulus_eq. lia.
Qed.

Lemma bits_in_last_byte_eq output_bits :
  1 <= output_bits < SizeT.modulus ->
  bits_in_last_byte output_bits = (output_bits - 1) mod 8 + 1.
Proof.
  intros Hb. unfold bits_in_last_byte, SizeT.add, SizeT.rem, SizeT.sub, to_uint8.
  rewrite (size_wrap_small (output_bits - 1)) by (unfold SizeT.valid; lia).
  pose proof (Z.mod_pos_bound (output_bits - 1) 8 ltac:(lia)) as Hm.
  rewrite size_wrap_small by (unfold SizeT.valid; rewrite size_modulus_eq; lia).
  apply Z.mod_small. lia.
Qed.

Lemma bits_in_last_byte_range output_bits :
  1 <= output_bits < SizeT.modulus ->
  1 <= bits_in_last_byte output_bits <= 8.
Proof.
  intros Hb. rewrite bits_in_last_byte_eq by done.
  pose proof (Z.mod_pos_bound (output_bits - 1) 8 ltac:(lia)). lia.
Qed.

Lemma small_cases (P : Z -> Prop) :
  P 1 -> P 2 -> P 3 -> P 4 -> P 5 -> P 6 -> P 7 -> P 8 ->
  forall k, 1 <= k <= 8 -> P k.
Proof.
  intros H1 H2 H3 H4 H5 H6 H7 H8 k Hk.
  assert (k = 1 \/ k = 2 \/ k = 3 \/ k = 4 \/ k = 5 \/ k = 6 \/ k = 7 \/ k = 8)
    as Hc by lia.
  by destruct Hc as [->|[->|[->|[->|[->|[->|[->| ->]]]]]]].
Qed.

Lemma bitmask_spec_mask k : 1 <= k <= 8 -> bitmask k = spec_mask k.
Proof. revert k. apply small_cases; reflexivity. Qed.

Lemma bitmask_uint8 k : is_uint8 (bitmask k).
Proof. unfold bitmask, to_uint8, is_uint8. apply Z.mod_pos_bound. lia. Qed.

(** The mask has its [8 - k] low bits clear and its [k] high bits set. *)
Lemma bitmask_testbit k i :
  1 <= k <= 8 -> 0 <= i < 8 ->
  Z.testbit (bitmask k) i = bool_decide (8 - k <= i).
Proof.
  intros Hk Hi. revert k Hk. 
  assert (i = 0 \/ i = 1 \/ i = 2 \/ i = 3 \/ i = 4 \/ i = 5 \/ i = 6 \/ i = 7)
    as Hc by lia.
  destruct Hc as [->|[->|[->|[->|[->|[->|[->| ->]]]]]]];
    apply small_cases; reflexivity.
Qed.

(** The [int] sub-expressions of the mask stay inside the range of a 32-bit
    [int] for every value [bits_in_last_byte] can take. *)
Lemma bitmask_int_range k :
  1 <= k <= 8 ->
  0 <= 8 - k < 32 /\
  - 2 ^ 31 <= Z.shiftl 1 (8 - k) - 1 < 2 ^ 31 /\
  - 2 ^ 31 <= Z.lnot (Z.shiftl 1 (8 - k) - 1) < 2 ^ 31.
Proof. revert k. apply small_cases; vm_compute; intuition discriminate. Qed.

Lemma land_mask_uint8 x mask :
  is_uint8 mask -> to_uint8 (Z.land x mask) = Z.land x mask.
Proof.
  unfold is_uint8, to_uint8. intros Hm.
  change 256 with (2 ^ 8).
  rewrite <- Z.land_ones, <- Z.land_assoc, (Z.land_ones mask) by lia.
  by rewrite (Z.mod_small mask).
Qed.

(** ** Running computations *)

Section Run.

Context {S : Type}.
Implicit Types σ : gmap loc S.

Lemma bind_ok {A B} (m : M S A) (f : A -> M S B) σ a σ' :
  m σ = Ok (a, σ') -> (m ≫= f) σ = f a σ'.
Proof. unfold mbind, M_mbind, M_bind. by intros ->. Qed.

Lemma bind_throw {A B} (m : M S A) (f : A -> M S B) σ e :
  m σ = Throw e -> (m ≫= f) σ = Throw e.
Proof. unfold mbind, M_mbind, M_bind. by intros ->. Qed.

Lemma bind_undefined {A B} (m : M S A) (f : A -> M S B) σ :
  m σ = Undefined -> (m ≫= f) σ = Undefined.
Proof. unfold mbind, M_mbind, M_bind. by intros ->. Qed.

(** A computation that ends normally went through both halves. *)
Lemma bind_ok_inv {A B} (m : M S A) (f : A -> M S B) σ b σ'' :
  (m ≫= f) σ = Ok (b, σ'') ->
  exists a σ', m σ = Ok (a, σ') /\ f a σ' = Ok (b, σ'').
Proof.
  unfold mbind, M_mbind, M_bind.
  destruct (m σ) as [[a σ']| |]; [|done..]. eauto.
Qed.

Lemma ret_ok {A} (a : A) σ : (mret a : M S A) σ = Ok (a, σ).
Proof. reflexivity. Qed.

Lemma deref_ok p σ h : σ !! p = Some h -> deref p σ = Ok (h, σ).
Proof. unfold deref. by intros ->. Qed.

Lemma store_ok p σ h h' :
  σ !! p = Some h -> store p h' σ = Ok (tt, <[p := h']> σ).
Proof. unfold store. by intros ->. Qed.

Lemma arg_check_true msg σ :
  BOTAN_ARG_CHECK true msg σ = Ok (tt, σ).
Proof. reflexivity. Qed.

Lemma arg_check_false msg σ :
  BOTAN_ARG_CHECK false msg σ = Throw (Invalid_Argument msg).
Proof. reflexivity. Qed.

Lemma assert_nomsg_true σ :
  BOTAN_ASSERT_NOMSG true σ = Ok (tt, σ).
Proof. reflexivity. Qed.

Lemma assert_nomsg_false σ :
  BOTAN_ASSERT_NOMSG false σ = Throw (Internal_Error "assertion failed").
Proof. reflexivity. Qed.

Lemma alloc_fresh σ : σ !! fresh (dom σ) = None.
Proof. apply not_elem_of_dom, is_fresh. Qed.

End Run.

Section CallFacts.

Context {H : Type} {HF : HashFunction H}.
Implicit Types σ : gmap loc H.

Lemma call_output_length_ok p σ h :
  σ !! p = Some h -> call_output_length p σ = Ok (hf_output_length h, σ).
Proof.
  intros Hp. unfold call_output_length.
  by rewrite (bind_ok _ _ _ _ _ (deref_ok _ _ _ Hp)).
Qed.

Lemma call_update_ok p σ h input :
  σ !! p = Some h ->
  call_update p input σ = Ok (tt, <[p := hf_update h input]> σ).
Proof.
  intros Hp. unfold call_update.
  rewrite (bind_ok _ _ _ _ _ (deref_ok _ _ _ Hp)). by eapply store_ok.
Qed.

Lemma call_clear_ok p σ h :
  σ !! p = Some h -> call_clear p σ = Ok (tt, <[p := hf_clear h]> σ).
Proof.
  intros Hp. unfold call_clear.
  rewrite (bind_ok _ _ _ _ _ (deref_ok _ _ _ Hp)). by eapply store_ok.
Qed.

Lemma call_copy_state_ok p σ h :
  σ !! p = Some h ->
  call_copy_state p σ =
    Ok (fresh (dom σ), <[fresh (dom σ) := hf_copy_state h]> σ).
Proof.
  intros Hp. unfold call_copy_state.
  by rewrite (bind_ok _ _ _ _ _ (deref_ok _ _ _ Hp)).
Qed.

Lemma call_new_object_ok p σ h :
  σ !! p = Some h ->
  call_new_object p σ =
    Ok (fresh (dom σ), <[fresh (dom σ) := hf_new_object h]> σ).
Proof.
  intros Hp. unfold call_new_object.
  by rewrite (bind_ok _ _ _ _ _ (deref_ok _ _ _ Hp)).
Qed.

Lemma call_final_ok p σ h buf :
  σ !! p = Some h ->
  hf_output_length h <= Z.of_nat (length buf) ->
  call_final p buf σ =
    Ok (fst (hf_final_result h) ++ drop (length (fst (hf_final_result h))) buf,
        <[p := snd (hf_final_result h)]> σ).
Proof.
  intros Hp Hlen. unfold call_final.
  rewrite (bind_ok _ _ _ _ _ (deref_ok _ _ _ Hp)).
  replace (hf_output_length h <=? Z.of_nat (length buf)) with true
    by (symmetry; by apply Z.leb_le).
  rewrite (bind_ok _ _ _ _ _ (arg_check_true _ _)).
  destruct (hf_final_result h) as [d h'] eqn:Hf. simpl.
  by rewrite (bind_ok _ _ _ _ _ (store_ok _ _ _ _ Hp)).
Qed.

End CallFacts.

(** ** List facts *)

Lemma mask_last_snoc mask (l : list Z) x :
  mask_last mask (l ++ [x]) = l ++ [Z.land x mask].
Proof.
  unfold mask_last. destruct (l ++ [x]) as [|y l'] eqn:Hl.
  - by destruct l.
  - rewrite <- Hl. rewrite List.last_last, length_app. simpl.
    replace (Nat.pred (length l + 1)) with (length l) by lia.
    by rewrite take_app_length.
Qed.

Lemma mask_last_length mask (l : list Z) : length (mask_last mask l) = length l.
Proof.
  destruct l as [|x l] using rev_ind; [done|].
  by rewrite mask_last_snoc, !length_app.
Qed.

(** Bytes before the last one are kept. *)
Lemma mask_last_lookup_lt mask (l : list Z) (i : nat) :
  (S i < length l)%nat -> mask_last mask l !! i = l !! i.
Proof.
  destruct l as [|x l _] using rev_ind; [simpl; lia|].
  rewrite mask_last_snoc, length_app. simpl. intros Hi.
  by rewrite !lookup_app_l by lia.
Qed.

(** The last byte is the old one ANDed with the mask. *)
Lemma mask_last_lookup_last mask (l : list Z) x :
  last l = Some x ->
  mask_last mask l !! Nat.pred (length l) = Some (Z.land x mask).
Proof.
  intros [l' ->]%last_Some.
  rewrite mask_last_snoc, length_app. simpl.
  replace (Nat.pred (length l' + 1)) with (length l' + 0)%nat by lia.
  by rewrite lookup_app_r, Nat.add_comm, Nat.add_sub by lia.
Qed.

Lemma and_back_ok {H : Type} (out : list Z) mask (σ : gmap loc H) :
  out <> [] -> is_uint8 mask ->
  and_back out mask σ = Ok (mask_last mask out, σ).
Proof.
  intros Hne Hm. unfold and_back.
  destruct out as [|x l _] using rev_ind; [done|].
  rewrite last_snoc, land_mask_uint8, mask_last_snoc, length_app by done.
  simpl. replace (Nat.pred (length l + 1)) with (length l + 0)%nat by lia.
  by rewrite insert_app_r.
Qed.

Lemma copy_n_ok {H : Type} (src : list Z) n (out : list Z) (σ : gmap loc H) :
  n <= Z.of_nat (length src) -> n <= Z.of_nat (length out) ->
  copy_n src n out σ =
    Ok (take (Z.to_nat n) src ++ drop (Z.to_nat n) out, σ).
Proof.
  intros Hs Ho. unfold copy_n.
  by rewrite (proj2 (Z.leb_le _ _) Hs), (proj2 (Z.leb_le _ _) Ho).
Qed.

(** ** The constructor *)

Section Constructor.

Context {H : Type} {HF : HashFunction H} {AL : Allocator}.
Implicit Types σ : gmap loc H.

(** The constructor on a live hash object, branch by branch. *)
Lemma Truncated_Hash_new_cases p bits σ h :
  σ !! p = Some h ->
  Truncated_Hash_new (Some p) bits σ =
    if can_allocate (hf_output_length h) then
      if 0 <? bits then
        if bits <=? SizeT.mul (hf_output_length h) 8 then
          Ok ({| m_hash := p; m_output_bits := bits;
                 m_buffer := replicate (Z.to_nat (hf_output_length h)) 0 |}, σ)
        else Throw (Invalid_Argument msg_too_short)
      else Throw (Invalid_Argument msg_empty)
    else Throw Bad_Alloc.
Proof.
  intros Hp. unfold Truncated_Hash_new, secure_vector.
  rewrite (bind_ok _ _ _ _ _ (call_output_length_ok _ _ _ Hp)).
  destruct (can_allocate (hf_output_length h)); [|done].
  rewrite (bind_ok _ _ _ _ _ (ret_ok _ _)).
  destruct (0 <? bits); [|done].
  rewrite (bind_ok _ _ _ _ _ (arg_check_true _ _)).
  rewrite (bind_ok _ _ _ _ _ (call_output_length_ok _ _ _ Hp)).
  by destruct (bits <=? _).
Qed.

(** A null pointer never reaches the checks. *)
Lemma Truncated_Hash_new_null bits σ :
  Truncated_Hash_new None bits σ = Undefined.
Proof. reflexivity. Qed.

End Constructor.

(** ** The adapter on a hash that keeps its contract *)

Section Adapter.

Context {H : Type} {HF : HashFunction H} {AL : Allocator}.
Context {olen : Z} {digest : list Z -> list Z} {absorbed : H -> list Z -> Prop}.
Context {HS : HashFunctionSpec olen digest absorbed}.
Implicit Types σ : gmap loc H.

Lemma native_bits_no_wrap : SizeT.mul olen 8 = olen * 8.
Proof.
  unfold SizeT.mul. apply size_wrap_small. unfold SizeT.valid, SizeT.max in *.
  pose proof hs_olen_nonneg. pose proof hs_olen_bits. unfold SizeT.max in *. lia.
Qed.

Lemma Truncated_Hash_new_ok p bits σ h msg :
  σ !! p = Some h -> absorbed h msg ->
  can_allocate olen = true ->
  1 <= bits <= olen * 8 ->
  Truncated_Hash_new (Some p) bits σ =
    Ok ({| m_hash := p; m_output_bits := bits;
           m_buffer := replicate (Z.to_nat olen) 0 |}, σ).
Proof.
  intros Hp Ha Hcan Hb. rewrite (Truncated_Hash_new_cases _ _ _ _ Hp).
  rewrite (hs_output_length _ _ Ha), Hcan, native_bits_no_wrap.
  rewrite (proj2 (Z.ltb_lt 0 bits)) by lia.
  by rewrite (proj2 (Z.leb_le bits _)) by lia.
Qed.

Lemma Truncated_Hash_new_inv p bits σ h msg this σ' :
  σ !! p = Some h -> absorbed h msg ->
  Truncated_Hash_new (Some p) bits σ = Ok (this, σ') ->
  σ' = σ /\ m_hash this = p /\ m_output_bits this = bits /\
  adapter_inv olen absorbed σ' this msg.
Proof.
  intros Hp Ha. rewrite (Truncated_Hash_new_cases _ _ _ _ Hp).
  rewrite (hs_output_length _ _ Ha), native_bits_no_wrap.
  destruct (can_allocate olen); [|done].
  destruct (0 <? bits) eqn:Hpos; [|done].
  destruct (bits <=? olen * 8) eqn:Hle; [|done].
  intros [= <- <-]. apply Z.ltb_lt in Hpos. apply Z.leb_le in Hle.
  repeat split; simpl; try lia. eauto.
Qed.

(** A construction that returned got its buffer from the allocator. *)
Lemma Truncated_Hash_new_allocated p bits σ h msg this σ' :
  σ !! p = Some h -> absorbed h msg ->
  Truncated_Hash_new (Some p) bits σ = Ok (this, σ') ->
  can_allocate olen = true.
Proof.
  intros Hp Ha. rewrite (Truncated_Hash_new_cases _ _ _ _ Hp).
  rewrite (hs_output_length _ _ Ha). by destruct (can_allocate olen).
Qed.

Lemma adapter_bits_valid σ this msg :
  adapter_inv olen absorbed σ this msg ->
  1 <= m_output_bits this <= SizeT.max - 7.
Proof.
  intros (_ & Hb & _). pose proof hs_olen_bits as Ho.
  rewrite size_max_eq in *.
  assert (olen * 8 <= 18446744073709551608); [|lia].
  assert (olen <= 2305843009213693951) by lia. lia.
Qed.

Lemma adapter_output_length σ this msg :
  adapter_inv olen absorbed σ this msg ->
  output_length this = ceil_div8 (m_output_bits this) /\
  1 <= output_length this <= olen.
Proof.
  intros Hinv. pose proof (adapter_bits_valid _ _ _ Hinv) as Hv.
  destruct Hinv as (_ & Hb & _).
  rewrite output_length_in_range by lia. split; [done|].
  split.
  - apply Z.lt_pred_le, Z.nle_gt. rewrite <- ceil_div8_least. lia.
  - apply ceil_div8_least. lia.
Qed.

(** [add_data] on a well-formed adapter. *)
Lemma add_data_ok σ this msg input :
  adapter_inv olen absorbed σ this msg ->
  exists h, σ !! m_hash this = Some h /\
    add_data this input σ = Ok (tt, <[m_hash this := hf_update h input]> σ) /\
    adapter_inv olen absorbed (<[m_hash this := hf_update h input]> σ)
      this (msg ++ input).
Proof.
  intros ((h & Hp & Ha) & Hb & Hbuf). exists h. split; [done|]. split.
  - by apply call_update_ok.
  - repeat split; try done; try lia.
    exists (hf_update h input). rewrite lookup_insert_eq.
    split; [done|]. by apply hs_update.
Qed.

Lemma feed_ok chunks : forall σ this msg,
  adapter_inv olen absorbed σ this msg ->
  exists σ', feed this chunks σ = Ok (tt, σ') /\
    adapter_inv olen absorbed σ' this (msg ++ concat chunks) /\
    (forall q, q <> m_hash this -> σ' !! q = σ !! q).
Proof.
  induction chunks as [|c cs IH]; intros σ this msg Hinv.
  - exists σ. simpl. by rewrite app_nil_r.
  - destruct (add_data_ok _ _ _ c Hinv) as (h & Hp & Hrun & Hinv').
    destruct (IH _ _ _ Hinv') as (σ' & Hfeed & Hinv'' & Hframe).
    exists σ'. simpl. rewrite (bind_ok _ _ _ _ _ Hrun).
    split; [done|]. split.
    + by rewrite app_assoc.
    + intros q Hq. rewrite Hframe by done. by rewrite lookup_insert_ne.
Qed.

End Adapter.

(** ** [final_result] and the other members on a well-formed adapter *)

Section Finalize.

Context {H : Type} {HF : HashFunction H} {AL : Allocator}.
Context {olen : Z} {digest : list Z -> list Z} {absorbed : H -> list Z -> Prop}.
Context {HS : HashFunctionSpec olen digest absorbed}.
Implicit Types σ : gmap loc H.

(** [final_result] into a span that is at least [output_length] long. *)
Lemma final_result_span σ this msg out :
  adapter_inv olen absorbed σ this msg ->
  output_length this <= Z.of_nat (length out) ->
  exists h, σ !! m_hash this = Some h /\
    final_result this out σ =
      Ok ((finalized olen this,
           mask_last (spec_mask ((m_output_bits this - 1) mod 8 + 1))
             (take (Z.to_nat (output_length this)) (digest msg) ++
              drop (Z.to_nat (output_length this)) out)),
          <[m_hash this := snd (hf_final_result h)]> σ).
Proof.
  intros Hinv Hout.
  destruct (adapter_output_length _ _ _ Hinv) as [Hceil Hlen].
  pose proof (adapter_bits_valid _ _ _ Hinv) as Hv.
  destruct Hinv as ((h & Hp & Ha) & Hb & Hbuf).
  exists h. split; [done|]. unfold final_result.
  rewrite (bind_ok _ _ _ _ _ (call_output_length_ok _ _ _ Hp)).
  rewrite (hs_output_length _ _ Ha), native_bits_no_wrap.
  rewrite (proj2 (Z.leb_le (m_output_bits this) _)) by lia.
  rewrite (bind_ok _ _ _ _ _ (assert_nomsg_true _)).
  pose proof (hs_digest_length msg) as Hd.
  erewrite bind_ok; last first.
  { apply call_final_ok; [done|].
    rewrite (hs_output_length _ _ Ha), Hbuf, length_replicate. lia. }
  rewrite (hs_final_digest _ _ Ha), Hbuf.
  rewrite drop_ge, app_nil_r by (rewrite length_replicate; lia).
  erewrite bind_ok; last by (apply copy_n_ok; lia).
  rewrite bits_in_last_byte_eq by (rewrite size_modulus_eq, size_max_eq in *; lia).
  pose proof (Z.mod_pos_bound (m_output_bits this - 1) 8 ltac:(lia)) as Hm.
  rewrite <- bitmask_spec_mask by lia.
  erewrite bind_ok; last first.
  { apply and_back_ok; [|apply bitmask_uint8].
    intros Hnil%(f_equal length). rewrite length_app, length_take in Hnil.
    simpl in Hnil. lia. }
  unfold finalized, zeroise. simpl.
  by replace (length (digest msg)) with (Z.to_nat olen) by lia.
Qed.

(** [final_result] into a span of exactly [output_length] bytes. *)
Lemma final_result_ok σ this msg out :
  adapter_inv olen absorbed σ this msg ->
  Z.of_nat (length out) = output_length this ->
  exists h, σ !! m_hash this = Some h /\
    final_result this out σ =
      Ok ((finalized olen this, truncated (m_output_bits this) (digest msg)),
          <[m_hash this := snd (hf_final_result h)]> σ).
Proof.
  intros Hinv Hout.
  destruct (final_result_span σ this msg out Hinv) as (h & Hp & Hrun); [lia|].
  exists h. split; [done|]. rewrite Hrun.
  destruct (adapter_output_length _ _ _ Hinv) as [Hceil _].
  rewrite drop_ge, app_nil_r by lia.
  unfold truncated. by rewrite Hceil.
Qed.

Lemma finalized_inv σ this msg h :
  adapter_inv olen absorbed σ this msg ->
  σ !! m_hash this = Some h ->
  adapter_inv olen absorbed (<[m_hash this := snd (hf_final_result h)]> σ)
    (finalized olen this) [].
Proof.
  intros ((h' & Hp & Ha) & Hb & Hbuf) Hp'.
  assert (h' = h) as -> by congruence.
  repeat split; simpl; try lia.
  exists (snd (hf_final_result h)). rewrite lookup_insert_eq.
  split; [done|]. by eapply hs_final_reset.
Qed.

Lemma clear_ok σ this msg :
  adapter_inv olen absorbed σ this msg ->
  exists h, σ !! m_hash this = Some h /\
    clear this σ = Ok (tt, <[m_hash this := hf_clear h]> σ) /\
    adapter_inv olen absorbed (<[m_hash this := hf_clear h]> σ) this [].
Proof.
  intros ((h & Hp & Ha) & Hb & Hbuf). exists h. split; [done|]. split.
  - by apply call_clear_ok.
  - repeat split; try done; try lia.
    exists (hf_clear h). rewrite lookup_insert_eq.
    split; [done|]. by eapply hs_clear.
Qed.

Lemma copy_state_ok σ this msg :
  adapter_inv olen absorbed σ this msg ->
  can_allocate olen = true ->
  exists h,
    let p := fresh (dom σ) in
    let σ' := <[p := hf_copy_state h]> σ in
    let copy := {| m_hash := p; m_output_bits := m_output_bits this;
                   m_buffer := replicate (Z.to_nat olen) 0 |} in
    σ !! m_hash this = Some h /\
    p <> m_hash this /\
    copy_state this σ = Ok (copy, σ') /\
    adapter_inv olen absorbed σ' copy msg /\
    adapter_inv olen absorbed σ' this msg.
Proof.
  intros ((h & Hp & Ha) & Hb & Hbuf) Hcan. exists h. simpl.
  assert (fresh (dom σ) <> m_hash this) as Hne.
  { intros Heq. pose proof (alloc_fresh σ) as Hf. congruence. }
  split; [done|]. split; [done|]. split; [|split].
  - unfold copy_state.
    rewrite (bind_ok _ _ _ _ _ (call_copy_state_ok _ _ _ Hp)).
    eapply Truncated_Hash_new_ok; [apply lookup_insert_eq| |done|done].
    by eapply hs_copy_state.
  - repeat split; simpl; try lia.
    exists (hf_copy_state h). rewrite lookup_insert_eq.
    split; [done|]. by eapply hs_copy_state.
  - repeat split; try done; try lia.
    exists h. by rewrite lookup_insert_ne.
Qed.

End Finalize.

(** ** Histories of calls *)

Section History.

Context {H : Type} {HF : HashFunction H} {AL : Allocator}.
Context {olen : Z} {digest : list Z -> list Z} {absorbed : H -> list Z -> Prop}.
Context {HS : HashFunctionSpec olen digest absorbed}.
Implicit Types σ : gmap loc H.

Lemma finalized_id σ this msg :
  adapter_inv olen absorbed σ this msg -> finalized olen this = this.
Proof.
  intros (_ & _ & Hbuf). destruct this as [p b buf]. unfold finalized.
  simpl in *. by rewrite Hbuf.
Qed.

Lemma do_call_ok σ this msg c :
  adapter_inv olen absorbed σ this msg -> call_ok this c ->
  exists σ', do_call this c σ = Ok (this, σ') /\
    adapter_inv olen absorbed σ' this (absorbed_after msg c) /\
    (forall q, q <> m_hash this -> σ' !! q = σ !! q).
Proof.
  intros Hinv Hc. destruct c as [input|out|]; simpl in *.
  - destruct (add_data_ok _ _ _ input Hinv) as (h & Hp & Hrun & Hinv').
    eexists. rewrite (bind_ok _ _ _ _ _ Hrun). split; [done|].
    split; [done|]. intros q Hq. by rewrite lookup_insert_ne.
  - destruct (final_result_ok _ _ _ out Hinv Hc) as (h & Hp & Hrun).
    eexists. rewrite (bind_ok _ _ _ _ _ Hrun). simpl.
    rewrite (finalized_id _ _ _ Hinv). split; [done|]. split.
    + rewrite <- (finalized_id _ _ _ Hinv) at 2. by eapply finalized_inv.
    + intros q Hq. by rewrite lookup_insert_ne.
  - destruct (clear_ok _ _ _ Hinv) as (h & Hp & Hrun & Hinv').
    eexists. rewrite (bind_ok _ _ _ _ _ Hrun). split; [done|].
    split; [done|]. intros q Hq. by rewrite lookup_insert_ne.
Qed.

Lemma do_calls_ok cs : forall σ this msg,
  adapter_inv olen absorbed σ this msg -> Forall (call_ok this) cs ->
  exists σ', do_calls this cs σ = Ok (this, σ') /\
    adapter_inv olen absorbed σ' this (fold_left absorbed_after cs msg) /\
    (forall q, q <> m_hash this -> σ' !! q = σ !! q).
Proof.
  induction cs as [|c cs IH]; intros σ this msg Hinv Hcs.
  - by exists σ.
  - apply Forall_cons in Hcs as [Hc Hcs].
    destruct (do_call_ok _ _ _ _ Hinv Hc) as (σ1 & Hrun & Hinv1 & Hfr1).
    destruct (IH _ _ _ Hinv1 Hcs) as (σ2 & Hrun2 & Hinv2 & Hfr2).
    exists σ2. simpl. rewrite (bind_ok _ _ _ _ _ Hrun).
    split; [done|]. split; [done|].
    intros q Hq. by rewrite Hfr2, Hfr1.
Qed.

Lemma feed_absorbs chunks msg :
  fold_left absorbed_after (Call_add_data <$> chunks) msg =
  msg ++ concat chunks.
Proof.
  revert msg. induction chunks as [|c cs IH]; intros msg; simpl.
  - by rewrite app_nil_r.
  - by rewrite IH, app_assoc.
Qed.

End History.

(** ** Fletcher-16 keeps the contract *)

Lemma fletcher16_step_range s x :
  0 <= fst (Fletcher16.step s x) < 255 /\ 0 <= snd (Fletcher16.step s x) < 255.
Proof. unfold Fletcher16.step. simpl. split; apply Z.mod_pos_bound; lia. Qed.

Lemma fletcher16_update_range msg : forall s,
  (0 <= fst s < 255 /\ 0 <= snd s < 255) ->
  0 <= fst (Fletcher16.update s msg) < 255 /\
  0 <= snd (Fletcher16.update s msg) < 255.
Proof.
  induction msg as [|x msg IH]; intros s Hs; [done|].
  apply IH, fletcher16_step_range.
Qed.

#[global] Instance fletcher16_spec :
  HashFunctionSpec 2 Fletcher16.digest Fletcher16.absorbed.
Proof.
  split; try done.
  - intros msg. unfold Fletcher16.digest, Fletcher16.emit.
    destruct (fletcher16_update_range msg Fletcher16.init) as [Ha Hb]; [done|].
    unfold is_uint8. repeat constructor; lia.
  - intros h msg input ->. unfold Fletcher16.absorbed. simpl.
    unfold Fletcher16.update. by rewrite fold_left_app.
  - by intros h msg ->.
Qed.

(** ** What [truncated] keeps and what it clears *)

Section Truncation.

Variables (bits : Z) (d : list Z).
Hypothesis Hbits : 1 <= bits.
Hypothesis Hfits : bits <= 8 * Z.of_nat (length d).

Let n : nat := Z.to_nat (ceil_div8 bits).
Let k : Z := (bits - 1) mod 8 + 1.

Lemma truncated_count : (1 <= n <= length d)%nat.
Proof.
  subst n. pose proof (proj1 (ceil_div8_least bits (Z.of_nat (length d))) Hfits).
  assert (~ ceil_div8 bits <= 0) by (rewrite <- ceil_div8_least; lia). lia.
Qed.

Lemma truncated_len : length (truncated bits d) = n.
Proof.
  unfold truncated. rewrite mask_last_length, length_take.
  pose proof truncated_count. subst n. lia.
Qed.

Lemma truncated_lookup_lt (i : nat) :
  (S i < n)%nat -> truncated bits d !! i = d !! i.
Proof.
  intros Hi. pose proof truncated_count as Hn. unfold truncated. fold n.
  rewrite mask_last_lookup_lt by (rewrite length_take; lia).
  apply lookup_take_lt. lia.
Qed.

Lemma truncated_lookup_last :
  exists x, d !! Nat.pred n = Some x /\
    truncated bits d !! Nat.pred n = Some (Z.land x (spec_mask k)).
Proof.
  pose proof truncated_count as Hn.
  destruct (lookup_lt_is_Some_2 d (Nat.pred n)) as [x Hx]; [lia|].
  exists x. split; [done|]. unfold truncated. fold n. fold k.
  assert (length (take n d) = n) as Hlen by (rewrite length_take; lia).
  replace (Nat.pred n) with (Nat.pred (length (take n d))) at 1 by congruence.
  apply mask_last_lookup_last.
  rewrite last_lookup, Hlen, lookup_take_lt by lia. done.
Qed.

Lemma truncated_low_bits x j :
  truncated bits d !! Nat.pred n = Some x ->
  0 <= j < 7 - (bits - 1) mod 8 ->
  Z.testbit x j = false.
Proof.
  intros Hx Hj. destruct truncated_lookup_last as (y & _ & Hy).
  rewrite Hy in Hx. injection Hx as <-.
  pose proof (Z.mod_pos_bound (bits - 1) 8 ltac:(lia)) as Hm.
  rewrite Z.land_spec, <- bitmask_spec_mask by (subst k; lia).
  rewrite bitmask_testbit by (subst k; lia).
  rewrite bool_decide_eq_false_2 by (subst k; lia).
  apply andb_false_r.
Qed.

(** A bit length that fills its last byte keeps every bit. *)
Lemma truncated_aligned :
  bits mod 8 = 0 -> Forall is_uint8 d ->
  truncated bits d = take n d.
Proof.
  intros Hal Hd. pose proof truncated_count as Hn.
  unfold truncated. fold n.
  assert ((bits - 1) mod 8 + 1 = 8) as -> by (Z.div_mod_to_equations; lia).
  assert (Forall is_uint8 (take n d)) as Ht by by apply Forall_take.
  assert (take n d <> []) as Hne.
  { intros Hnil%(f_equal length). rewrite length_take in Hnil. simpl in *. lia. }
  destruct (take n d) as [|x l _] using rev_ind; [done|].
  rewrite mask_last_snoc. f_equal. f_equal.
  apply Forall_app in Ht as [_ Hx]. apply Forall_inv in Hx.
  change (spec_mask 8) with (Z.ones 8).
  rewrite Z.land_ones by lia. apply Z.mod_small. exact Hx.
Qed.

End Truncation.

(** ** The failure branches on concrete data *)

(** A span shorter than [output_length]: [copy_n] writes past its end. *)
Example final_result_short_span :
  final_result (Demo.adapter 12) [77] Demo.heap1 = Undefined.
Proof. reflexivity. Qed.

(** An adapter the constructor would have refused trips the assertion. *)
Example final_result_assertion :
  final_result (Demo.adapter 17) [77; 77; 77] Demo.heap1
    = Throw (Internal_Error "assertion failed").
Proof. reflexivity. Qed.

(** A dangling [m_hash]. *)
Example final_result_dangling :
  final_result (Demo.adapter_q 12) [77; 77] Demo.heap1 = Undefined.
Proof. reflexivity. Qed.

(** A span longer than [output_length]: [out.back()] is the last byte of
    the span, so that byte is masked and the digest bytes are all kept. *)
Example final_result_long_span :
  final_result (Demo.adapter 12) [77; 77; 77] Demo.heap1
    = Ok ((Demo.adapter 12, [10; 6; 64]), Demo.heap0).
Proof. reflexivity. Qed.

(** * The claims *)

(** C1: on an adapter that the constructor accepted, after any history of
    calls, [final_result] into a span of [output_length] bytes succeeds and
    returns exactly [ceil(bits / 8)] bytes: the first bytes of the wrapped
    hash's native digest, all as they are except the last, which is ANDed
    with [0xFF << (8 - k)] cut to a byte, [k = ((bits - 1) mod 8) + 1]; the
    low [7 - ((bits - 1) mod 8)] bits of that byte are zero.  The mask
    expression of the code equals this mask for every [k] from 1 to 8. *)
Theorem C1_final_result_truncates
    {H : Type} {HF : HashFunction H} {AL : Allocator}
    {olen : Z} {digest : list Z -> list Z} {absorbed : H -> list Z -> Prop}
    {HS : HashFunctionSpec olen digest absorbed}
    (σ0 σ1 : gmap loc H) (p : loc) (h0 : H) (msg0 : list Z) (bits : Z)
    (this : Truncated_Hash) (cs : list call) (out : list Z) :
  σ0 !! p = Some h0 -> absorbed h0 msg0 ->
  Truncated_Hash_new (Some p) bits σ0 = Ok (this, σ1) ->
  Forall (call_ok this) cs ->
  Z.of_nat (length out) = output_length this ->
  let n := Z.to_nat (ceil_div8 bits) in
  let k := (bits - 1) mod 8 + 1 in
  exists σ2 h2 σ3 out',
    do_calls this cs σ1 = Ok (this, σ2) /\
    σ2 !! m_hash this = Some h2 /\
    final_result this out σ2 = Ok ((this, out'), σ3) /\
    let native := fst (hf_final_result h2) in
    native = digest (fold_left absorbed_after cs msg0) /\
    length out' = n /\ (1 <= n <= length native)%nat /\
    (forall i : nat, (S i < n)%nat -> out' !! i = native !! i) /\
    (exists x, native !! Nat.pred n = Some x /\
               out' !! Nat.pred n = Some (Z.land x (spec_mask k))) /\
    (forall x j, out' !! Nat.pred n = Some x ->
                 0 <= j < 7 - (bits - 1) mod 8 -> Z.testbit x j = false) /\
    (forall b, 1 <= b <= 8 -> bitmask b = spec_mask b).
Proof.
  intros Hp Ha Hnew Hcs Hout n k.
  destruct (Truncated_Hash_new_inv _ _ _ _ _ _ _ Hp Ha Hnew)
    as (-> & Hloc & Hbits & Hinv).
  destruct (do_calls_ok cs _ _ _ Hinv Hcs) as (σ2 & Hrun & Hinv2 & _).
  destruct (final_result_ok _ _ _ out Hinv2 Hout) as (h2 & Hp2 & Hfin).
  rewrite (finalized_id _ _ _ Hinv2), Hbits in Hfin.
  exists σ2, h2, (<[m_hash this := snd (hf_final_result h2)]> σ2),
    (truncated bits (digest (fold_left absorbed_after cs msg0))).
  split; [done|]. split; [done|]. split; [done|].
  destruct Hinv2 as ((h2' & Hp2' & Ha2) & Hb & _).
  assert (h2' = h2) as -> by congruence.
  rewrite (hs_final_digest _ _ Ha2). simpl.
  set (d := digest (fold_left absorbed_after cs msg0)).
  assert (1 <= bits) as Hb1 by lia.
  assert (bits <= 8 * Z.of_nat (length d)) as Hb2
    by (subst d; rewrite hs_digest_length; lia).
  split; [done|].
  split; [by apply truncated_len|].
  split; [by apply truncated_count|].
  split; [intros i; by apply truncated_lookup_lt|].
  split; [by apply truncated_lookup_last|].
  split; [intros x j; by apply truncated_low_bits|].
  apply bitmask_spec_mask.
Qed.

Lemma C1_witness :
  Truncated_Hash_new (Some Demo.p) 12 Demo.heap0
    = Ok (Demo.adapter 12, Demo.heap0) /\
  exists σ3,
    do_calls (Demo.adapter 12) Demo.history Demo.heap0
      = Ok (Demo.adapter 12, Demo.heap1) /\
    final_result (Demo.adapter 12) [77; 77] Demo.heap1
      = Ok ((Demo.adapter 12, [10; 0]), σ3).
Proof.
  split; [reflexivity|].
  destruct (C1_final_result_truncates (HS := fletcher16_spec)
              Demo.heap0 Demo.heap0 Demo.p Fletcher16.init [] 12
              (Demo.adapter 12) Demo.history [77; 77])
    as (σ2 & h2 & σ3 & out' & Hrun & Hp2 & Hfin & _).
  - reflexivity.
  - reflexivity.
  - reflexivity.
  - repeat constructor.
  - reflexivity.
  - exists σ3. split; [reflexivity|].
    assert (Ok (Demo.adapter 12, Demo.heap1) = Ok (Demo.adapter 12, σ2)) as Hσ
      by (rewrite <- Hrun; reflexivity).
    injection Hσ as <-. rewrite Hfin.
    assert (Ok ((Demo.adapter 12, [10; 0]), Demo.heap0)
            = Ok ((Demo.adapter 12, out'), σ3)) as Hout
      by (rewrite <- Hfin; reflexivity).
    by injection Hout as <- <-.
Defined.




(** ** Shared steps: a constructed adapter and its history *)

Section Constructed.

Context {H : Type} {HF : HashFunction H} {AL : Allocator}.
Context {olen : Z} {digest : list Z -> list Z} {absorbed : H -> list Z -> Prop}.
Context {HS : HashFunctionSpec olen digest absorbed}.
Implicit Types σ : gmap loc H.

Lemma constructed_history σ0 σ1 p h0 msg0 bits this cs :
  σ0 !! p = Some h0 -> absorbed h0 msg0 ->
  Truncated_Hash_new (Some p) bits σ0 = Ok (this, σ1) ->
  Forall (call_ok this) cs ->
  σ1 = σ0 /\ m_hash this = p /\ m_output_bits this = bits /\
  exists σ2, do_calls this cs σ1 = Ok (this, σ2) /\
    adapter_inv olen absorbed σ2 this (fold_left absorbed_after cs msg0) /\
    (forall q, q <> m_hash this -> σ2 !! q = σ1 !! q).
Proof.
  intros Hp Ha Hnew Hcs.
  destruct (Truncated_Hash_new_inv _ _ _ _ _ _ _ Hp Ha Hnew)
    as (Hσ & Hloc & Hbits & Hinv).
  repeat (split; [done|]). by apply do_calls_ok.
Qed.

Lemma final_result_inv_ok σ this msg out :
  adapter_inv olen absorbed σ this msg ->
  Z.of_nat (length out) = output_length this ->
  exists h, σ !! m_hash this = Some h /\
    fst (hf_final_result h) = digest msg /\
    final_result this out σ =
      Ok ((this, truncated (m_output_bits this) (digest msg)),
          <[m_hash this := snd (hf_final_result h)]> σ) /\
    adapter_inv olen absorbed (<[m_hash this := snd (hf_final_result h)]> σ)
      this [].
Proof.
  intros Hinv Hout.
  destruct (final_result_ok _ _ _ out Hinv Hout) as (h & Hp & Hfin).
  rewrite (finalized_id _ _ _ Hinv) in Hfin.
  exists h. split; [done|]. split.
  - destruct Hinv as ((h' & Hp' & Ha) & _).
    assert (h' = h) as -> by congruence. by apply hs_final_digest.
  - split; [done|]. rewrite <- (finalized_id _ _ _ Hinv) at 2.
    by eapply finalized_inv.
Qed.

(** Feeding chunks is a history of [add_data] calls. *)
Lemma feed_inv_ok chunks σ this msg :
  adapter_inv olen absorbed σ this msg ->
  exists σ', feed this chunks σ = Ok (tt, σ') /\
    adapter_inv olen absorbed σ' this (msg ++ concat chunks) /\
    (forall q, q <> m_hash this -> σ' !! q = σ !! q).
Proof. apply feed_ok. Qed.

End Constructed.

(** What a normal return of [final_result] says about the adapter it
    leaves, whatever the hash object does. *)
Lemma final_result_returns {H : Type} {HF : HashFunction H}
    (this this' : Truncated_Hash) (out out' : list Z) (σ σ' : gmap loc H) :
  final_result this out σ = Ok ((this', out'), σ') ->
  exists buf, m_buffer this' = zeroise buf /\
    m_hash this' = m_hash this /\ m_output_bits this' = m_output_bits this.
Proof.
  unfold final_result. intros Hrun.
  apply bind_ok_inv in Hrun as (n & σa & _ & Hrun).
  apply bind_ok_inv in Hrun as (? & σb & _ & Hrun).
  apply bind_ok_inv in Hrun as (buf & σc & _ & Hrun).
  apply bind_ok_inv in Hrun as (out1 & σd & _ & Hrun).
  apply bind_ok_inv in Hrun as (out2 & σe & _ & Hrun).
  injection Hrun as <- _ _. by exists buf.
Qed.

Lemma zeroise_zero (buf : list Z) : Forall (fun x => x = 0) (zeroise buf).
Proof. unfold zeroise. by apply Forall_replicate. Qed.

(** C3: a bit length that is a multiple of eight clears nothing: the mask
    is all ones, and [final_result] returns the first [bits / 8] bytes of
    the native digest as they are; at the native bit length this is the
    whole digest, byte for byte. *)
Theorem C3_aligned_length_keeps_all_bits
    {H : Type} {HF : HashFunction H} {AL : Allocator}
    {olen : Z} {digest : list Z -> list Z} {absorbed : H -> list Z -> Prop}
    {HS : HashFunctionSpec olen digest absorbed}
    (σ0 σ1 : gmap loc H) (p : loc) (h0 : H) (msg0 : list Z) (bits : Z)
    (this : Truncated_Hash) (cs : list call) (out : list Z) :
  σ0 !! p = Some h0 -> absorbed h0 msg0 ->
  Truncated_Hash_new (Some p) bits σ0 = Ok (this, σ1) ->
  Forall (call_ok this) cs ->
  Z.of_nat (length out) = output_length this ->
  bits mod 8 = 0 ->
  (exists σ2 h2 σ3 out',
     do_calls this cs σ1 = Ok (this, σ2) /\
     σ2 !! m_hash this = Some h2 /\
     final_result this out σ2 = Ok ((this, out'), σ3) /\
     out' = take (Z.to_nat (bits / 8)) (fst (hf_final_result h2)) /\
     (bits = olen * 8 -> out' = fst (hf_final_result h2))) /\
  (forall b, SizeT.valid b -> b mod 8 = 0 ->
     bitmask (bits_in_last_byte b) = 255 /\
     forall x, is_uint8 x ->
       to_uint8 (Z.land x (bitmask (bits_in_last_byte b))) = x).
Proof.
  intros Hp Ha Hnew Hcs Hout Hal. split.
  - destruct (constructed_history _ _ _ _ _ _ _ _ Hp Ha Hnew Hcs)
      as (_ & _ & Hbits & σ2 & Hrun & Hinv & _).
    destruct (final_result_inv_ok _ _ _ out Hinv Hout)
      as (h2 & Hp2 & Hd & Hfin & _).
    exists σ2, h2. do 2 eexists.
    split; [done|]. split; [done|]. split; [exact Hfin|].
    rewrite Hd, Hbits. destruct Hinv as (_ & Hb & _). rewrite Hbits in Hb.
    pose proof (hs_digest_length (fold_left absorbed_after cs msg0)) as Hlen.
    rewrite truncated_aligned; [|lia|lia|done|apply hs_digest_uint8].
    assert (ceil_div8 bits = bits / 8) as ->
      by (unfold ceil_div8; Z.div_mod_to_equations; lia).
    split; [done|]. intros ->.
    apply take_ge. rewrite Z.div_mul by done. lia.
  - intros b Hb Hb8.
    assert (bits_in_last_byte b = 8) as ->.
    { destruct (Z.eq_dec b 0) as [->|Hne]; [reflexivity|].
      unfold SizeT.valid in Hb. rewrite bits_in_last_byte_eq by lia.
      Z.div_mod_to_equations. lia. }
    split; [reflexivity|].
    intros x Hx. rewrite land_mask_uint8 by apply bitmask_uint8.
    change (bitmask 8) with (Z.ones 8). rewrite Z.land_ones by lia.
    by apply Z.mod_small.
Qed.

Lemma C3_witness :
  Truncated_Hash_new (Some Demo.p) 16 Demo.heap0
    = Ok (Demo.adapter 16, Demo.heap0) /\
  exists σ3,
    final_result (Demo.adapter 16) [77; 77] Demo.heap1
      = Ok ((Demo.adapter 16, Fletcher16.digest [1; 2; 3]), σ3).
Proof.
  split; [reflexivity|].
  destruct (C3_aligned_length_keeps_all_bits (HS := fletcher16_spec)
              Demo.heap0 Demo.heap0 Demo.p Fletcher16.init [] 16
              (Demo.adapter 16) Demo.history [77; 77])
    as ((σ2 & h2 & σ3 & out' & Hrun & Hp2 & Hfin & _ & Hfull) & _).
  - reflexivity.
  - reflexivity.
  - reflexivity.
  - repeat constructor.
  - reflexivity.
  - reflexivity.
  - exists σ3.
    assert (Ok (Demo.adapter 16, Demo.heap1) = Ok (Demo.adapter 16, σ2)) as Hσ
      by (rewrite <- Hrun; reflexivity).
    injection Hσ as <-. rewrite Hfin, (Hfull eq_refl).
    assert (Some (Fletcher16.update Fletcher16.init [1; 2; 3]) = Some h2)
      as Hh by (rewrite <- Hp2; reflexivity).
    by injection Hh as <-.
Defined.

(** C4: after [final_result] the scratch buffer holds only zeros.  On a
    constructed adapter, after any history, the call returns and leaves a
    buffer of the native output length filled with zeros; and whenever
    [final_result] returns, on any adapter and any hash object, the buffer
    it leaves is all zeros. *)
Theorem C4_scratch_buffer_zeroised
    {H : Type} {HF : HashFunction H} {AL : Allocator}
    {olen : Z} {digest : list Z -> list Z} {absorbed : H -> list Z -> Prop}
    {HS : HashFunctionSpec olen digest absorbed}
    (σ0 σ1 : gmap loc H) (p : loc) (h0 : H) (msg0 : list Z) (bits : Z)
    (this : Truncated_Hash) (cs : list call) (out : list Z) :
  σ0 !! p = Some h0 -> absorbed h0 msg0 ->
  Truncated_Hash_new (Some p) bits σ0 = Ok (this, σ1) ->
  Forall (call_ok this) cs ->
  Z.of_nat (length out) = output_length this ->
  (exists σ2 h2 this' out' σ3,
     do_calls this cs σ1 = Ok (this, σ2) /\
     σ2 !! m_hash this = Some h2 /\
     final_result this out σ2 = Ok ((this', out'), σ3) /\
     Z.of_nat (length (m_buffer this')) = hf_output_length h2 /\
     m_buffer this' = replicate (length (m_buffer this')) 0) /\
  (forall (t t' : Truncated_Hash) (o o' : list Z) (s s' : gmap loc H),
     final_result t o s = Ok ((t', o'), s') ->
     Forall (fun x => x = 0) (m_buffer t')).
Proof.
  intros Hp Ha Hnew Hcs Hout. split.
  - destruct (constructed_history _ _ _ _ _ _ _ _ Hp Ha Hnew Hcs)
      as (_ & _ & Hbits & σ2 & Hrun & Hinv & _).
    destruct (final_result_inv_ok _ _ _ out Hinv Hout)
      as (h2 & Hp2 & _ & Hfin & _).
    exists σ2, h2. do 3 eexists.
    split; [done|]. split; [done|]. split; [exact Hfin|].
    destruct Hinv as ((h2' & Hp2' & Ha2) & _ & Hbuf).
    assert (h2' = h2) as -> by congruence.
    rewrite (hs_output_length _ _ Ha2), Hbuf, length_replicate.
    pose proof hs_olen_nonneg. split; [lia|done].
  - intros t t' o o' s s' Hfin.
    destruct (final_result_returns _ _ _ _ _ _ Hfin) as (buf & -> & _).
    apply zeroise_zero.
Qed.

Lemma C4_witness :
  exists this' out' σ3,
    final_result (Demo.adapter 12) [77; 77] Demo.heap1
      = Ok ((this', out'), σ3) /\
    m_buffer this' = [0; 0].
Proof.
  destruct (C4_scratch_buffer_zeroised (HS := fletcher16_spec)
              Demo.heap0 Demo.heap0 Demo.p Fletcher16.init [] 12
              (Demo.adapter 12) Demo.history [77; 77])
    as ((σ2 & h2 & this' & out' & σ3 & Hrun & Hp2 & Hfin & Hlen & Hzero) & _).
  - reflexivity.
  - reflexivity.
  - reflexivity.
  - repeat constructor.
  - reflexivity.
  - exists this', out', σ3.
    assert (Ok (Demo.adapter 12, Demo.heap1) = Ok (Demo.adapter 12, σ2)) as Hσ
      by (rewrite <- Hrun; reflexivity).
    injection Hσ as <-. split; [exact Hfin|].
    rewrite Hzero. simpl in Hlen.
    by replace (length (m_buffer this')) with 2%nat by lia.
Defined.

(** C5 as stated fails at the largest [size_t]: [m_output_bits + 7] wraps
    around and the quotient is 0, not [ceil(m_output_bits / 8)]. *)
Lemma C5_counterexample :
  1 <= m_output_bits (Demo.adapter SizeT.max) /\
  SizeT.valid (m_output_bits (Demo.adapter SizeT.max)) /\
  output_length (Demo.adapter SizeT.max) = 0 /\
  ceil_div8 (m_output_bits (Demo.adapter SizeT.max)) = 2305843009213693952 /\
  output_length (Demo.adapter SizeT.max)
    <> ceil_div8 (m_output_bits (Demo.adapter SizeT.max)).
Proof.
  repeat split; try reflexivity; try discriminate.
Qed.

(** C5, amended: on every adapter the constructor accepted, and after any
    history of calls, [output_length] is [ceil(bits / 8)], the least number
    of bytes that hold [bits] bits; it reads [m_output_bits] only and takes
    part in no heap computation.  The expression [(m_output_bits + 7) / 8]
    equals [ceil(bits / 8)] for every [bits] from 1 to [SIZE_MAX - 7]. *)
Theorem C5_output_length_is_ceil
    {H : Type} {HF : HashFunction H} {AL : Allocator}
    {olen : Z} {digest : list Z -> list Z} {absorbed : H -> list Z -> Prop}
    {HS : HashFunctionSpec olen digest absorbed}
    (σ0 σ1 : gmap loc H) (p : loc) (h0 : H) (msg0 : list Z) (bits : Z)
    (this : Truncated_Hash) (cs : list call) :
  σ0 !! p = Some h0 -> absorbed h0 msg0 ->
  Truncated_Hash_new (Some p) bits σ0 = Ok (this, σ1) ->
  Forall (call_ok this) cs ->
  (exists this' σ2,
     do_calls this cs σ1 = Ok (this', σ2) /\
     output_length this' = ceil_div8 bits /\
     8 * (output_length this' - 1) < bits <= 8 * output_length this') /\
  (forall t t' : Truncated_Hash,
     m_output_bits t = m_output_bits t' -> output_length t = output_length t') /\
  (forall b q buf, 1 <= b <= SizeT.max - 7 ->
     output_length {| m_hash := q; m_output_bits := b; m_buffer := buf |}
       = ceil_div8 b).
Proof.
  intros Hp Ha Hnew Hcs. split; [|split].
  - destruct (constructed_history _ _ _ _ _ _ _ _ Hp Ha Hnew Hcs)
      as (_ & _ & Hbits & σ2 & Hrun & Hinv & _).
    exists this, σ2. split; [done|].
    destruct (adapter_output_length _ _ _ Hinv) as [Hceil _].
    rewrite Hceil, Hbits. split; [done|].
    unfold ceil_div8. Z.div_mod_to_equations. lia.
  - intros t t' Heq. unfold output_length. by rewrite Heq.
  - intros b q buf Hb. apply output_length_in_range. simpl. lia.
Qed.

Lemma C5_witness :
  Truncated_Hash_new (Some Demo.p) 12 Demo.heap0
    = Ok (Demo.adapter 12, Demo.heap0) /\
  output_length (Demo.adapter 12) = 2 /\
  output_length (Demo.adapter 9) = 2.
Proof.
  destruct (C5_output_length_is_ceil (HS := fletcher16_spec)
              Demo.heap0 Demo.heap0 Demo.p Fletcher16.init [] 12
              (Demo.adapter 12) Demo.history)
    as ((this' & σ2 & Hrun & Hlen & _) & _ & Hexpr).
  - reflexivity.
  - reflexivity.
  - reflexivity.
  - repeat constructor.
  - split; [reflexivity|]. split.
    + assert (Ok (Demo.adapter 12, Demo.heap1) = Ok (this', σ2)) as Hσ
        by (rewrite <- Hrun; reflexivity).
      injection Hσ as <- _. exact Hlen.
    + apply (Hexpr 9). rewrite size_max_eq. lia.
Defined.

(** C6: two adapters built with the same bit length on two fresh hash
    objects of the same kind, in heaps of their own, and fed the same
    message (cut into chunks in any two ways) return the same bytes from
    [final_result], whatever the output spans held before. *)
Theorem C6_deterministic
    {H : Type} {HF : HashFunction H} {AL : Allocator}
    {olen : Z} {digest : list Z -> list Z} {absorbed : H -> list Z -> Prop}
    {HS : HashFunctionSpec olen digest absorbed}
    (σa σa1 σb : gmap loc H) (pa pb : loc) (ha hb : H) (bits : Z)
    (ta : Truncated_Hash) (chunks_a chunks_b : list (list Z))
    (out_a out_b : list Z) :
  σa !! pa = Some ha -> absorbed ha [] ->
  σb !! pb = Some hb -> absorbed hb [] ->
  Truncated_Hash_new (Some pa) bits σa = Ok (ta, σa1) ->
  concat chunks_a = concat chunks_b ->
  Z.of_nat (length out_a) = output_length ta ->
  length out_b = length out_a ->
  exists tb σb1 σa2 σb2 r σa3 σb3,
    Truncated_Hash_new (Some pb) bits σb = Ok (tb, σb1) /\
    feed ta chunks_a σa1 = Ok (tt, σa2) /\
    feed tb chunks_b σb1 = Ok (tt, σb2) /\
    final_result ta out_a σa2 = Ok ((ta, r), σa3) /\
    final_result tb out_b σb2 = Ok ((tb, r), σb3).
Proof.
  intros Hpa Ha Hpb Hb Hnew Hmsg Hout_a Hout_b.
  destruct (Truncated_Hash_new_inv _ _ _ _ _ _ _ Hpa Ha Hnew)
    as (-> & Hloc & Hbits & Hinv_a).
  assert (1 <= bits <= olen * 8) as Hrange
    by (destruct Hinv_a as (_ & Hr & _); by rewrite Hbits in Hr).
  pose proof (Truncated_Hash_new_allocated _ _ _ _ _ _ _ Hpa Ha Hnew) as Hcan.
  pose proof (Truncated_Hash_new_ok _ _ _ _ _ Hpb Hb Hcan Hrange) as Hnew_b.
  destruct (Truncated_Hash_new_inv _ _ _ _ _ _ _ Hpb Hb Hnew_b)
    as (_ & _ & Hbits_b & Hinv_b).
  set (tb := {| m_hash := pb; m_output_bits := bits;
                m_buffer := replicate (Z.to_nat olen) 0 |}) in *.
  destruct (feed_inv_ok chunks_a _ _ _ Hinv_a) as (σa2 & Hfeed_a & Hinv_a2 & _).
  destruct (feed_inv_ok chunks_b _ _ _ Hinv_b) as (σb2 & Hfeed_b & Hinv_b2 & _).
  destruct (final_result_inv_ok _ _ _ out_a Hinv_a2 Hout_a)
    as (? & _ & _ & Hfin_a & _).
  assert (Z.of_nat (length out_b) = output_length tb) as Hout_b'.
  { rewrite Hout_b, Hout_a. unfold output_length. by rewrite Hbits. }
  destruct (final_result_inv_ok _ _ _ out_b Hinv_b2 Hout_b')
    as (? & _ & _ & Hfin_b & _).
  exists tb, σb, σa2, σb2. do 3 eexists.
  split; [done|]. split; [done|]. split; [done|].
  split; [exact Hfin_a|].
  rewrite Hfin_b, Hbits. simpl. by rewrite Hmsg.
Qed.

Lemma C6_witness :
  exists r σa3 σb3,
    final_result (Demo.adapter 12) [77; 77] Demo.heap1
      = Ok ((Demo.adapter 12, r), σa3) /\
    final_result (Demo.adapter_q 12) [0; 0] Demo.heap_q1
      = Ok ((Demo.adapter_q 12, r), σb3).
Proof.
  destruct (C6_deterministic (HS := fletcher16_spec)
              Demo.heap0 Demo.heap0 Demo.heap_q0 Demo.p Demo.q
              Fletcher16.init Fletcher16.init 12 (Demo.adapter 12)
              [[1; 2]; [3]] [[1]; []; [2; 3]] [77; 77] [0; 0])
    as (tb & σb1 & σa2 & σb2 & r & σa3 & σb3 &
        Hnew & Hfa & Hfb & Hra & Hrb).
  - reflexivity.
  - reflexivity.
  - reflexivity.
  - reflexivity.
  - reflexivity.
  - reflexivity.
  - reflexivity.
  - reflexivity.
  - exists r, σa3, σb3.
    assert (Ok (Demo.adapter_q 12, Demo.heap_q0) = Ok (tb, σb1)) as Hb
      by (rewrite <- Hnew; reflexivity).
    injection Hb as <- <-.
    assert (Ok (tt, Demo.heap1) = Ok (tt, σa2)) as Ha2
      by (rewrite <- Hfa; reflexivity).
    assert (Ok (tt, Demo.heap_q1) = Ok (tt, σb2)) as Hb2
      by (rewrite <- Hfb; reflexivity).
    injection Ha2 as <-. injection Hb2 as <-. by split.
Defined.

(** C7: [copy_state] on a constructed adapter, after any history, builds an
    adapter with the same bit length on a new hash object that holds a copy
    of the wrapped object's state, and leaves the original object as it
    was.  Bytes fed to the copy afterwards change neither the original's
    hash object nor the digest the original returns; bytes fed to the
    original change neither the copy's hash object nor the digest the copy
    returns. *)
Theorem C7_copy_state_isolated
    {H : Type} {HF : HashFunction H} {AL : Allocator}
    {olen : Z} {digest : list Z -> list Z} {absorbed : H -> list Z -> Prop}
    {HS : HashFunctionSpec olen digest absorbed}
    (σ0 σ1 : gmap loc H) (p : loc) (h0 : H) (msg0 : list Z) (bits : Z)
    (this : Truncated_Hash) (cs : list call) (out : list Z) :
  σ0 !! p = Some h0 -> absorbed h0 msg0 ->
  Truncated_Hash_new (Some p) bits σ0 = Ok (this, σ1) ->
  Forall (call_ok this) cs ->
  Z.of_nat (length out) = output_length this ->
  let msg := fold_left absorbed_after cs msg0 in
  exists σ2 h2 copy σ3,
    do_calls this cs σ1 = Ok (this, σ2) /\
    σ2 !! m_hash this = Some h2 /\
    copy_state this σ2 = Ok (copy, σ3) /\
    m_output_bits copy = bits /\
    m_hash copy <> m_hash this /\
    σ2 !! m_hash copy = None /\
    σ3 !! m_hash copy = Some (hf_copy_state h2) /\
    σ3 !! m_hash this = Some h2 /\
    (forall extra, exists σ4 s3 s4 s',
       feed copy extra σ3 = Ok (tt, σ4) /\
       σ4 !! m_hash this = Some h2 /\
       final_result this out σ3
         = Ok ((this, truncated bits (digest msg)), s3) /\
       final_result this out σ4
         = Ok ((this, truncated bits (digest msg)), s4) /\
       final_result copy out σ4
         = Ok ((copy, truncated bits (digest (msg ++ concat extra))), s')) /\
    (forall extra, exists σ4 s3 s4 s',
       feed this extra σ3 = Ok (tt, σ4) /\
       σ4 !! m_hash copy = Some (hf_copy_state h2) /\
       final_result copy out σ3
         = Ok ((copy, truncated bits (digest msg)), s3) /\
       final_result copy out σ4
         = Ok ((copy, truncated bits (digest msg)), s4) /\
       final_result this out σ4
         = Ok ((this, truncated bits (digest (msg ++ concat extra))), s')).
Proof.
  intros Hp Ha Hnew Hcs Hout msg.
  destruct (constructed_history _ _ _ _ _ _ _ _ Hp Ha Hnew Hcs)
    as (_ & _ & Hbits & σ2 & Hrun & Hinv & _).
  pose proof (Truncated_Hash_new_allocated _ _ _ _ _ _ _ Hp Ha Hnew) as Hcan.
  destruct (copy_state_ok _ _ _ Hinv Hcan)
    as (h2 & Hp2 & Hne & Hcopy & Hinv_c & Hinv_t).
  rewrite Hbits in Hcopy, Hinv_c.
  set (copy := {| m_hash := fresh (dom σ2); m_output_bits := bits;
                  m_buffer := replicate (Z.to_nat olen) 0 |}) in *.
  set (σ3 := <[fresh (dom σ2) := hf_copy_state h2]> σ2) in *.
  assert (Z.of_nat (length out) = output_length copy) as Hout_c
    by (rewrite Hout; unfold output_length; by rewrite Hbits).
  assert (σ3 !! m_hash this = Some h2) as Hp3
    by (subst σ3; by rewrite lookup_insert_ne).
  assert (σ3 !! m_hash copy = Some (hf_copy_state h2)) as Hc3
    by (subst σ3; apply lookup_insert_eq).
  exists σ2, h2, copy, σ3.
  repeat (split; [first [done | apply alloc_fresh]|]).
  split; intros extra.
  - destruct (feed_inv_ok extra _ _ _ Hinv_c) as (σ4 & Hfeed & Hinv_c4 & Hfr).
    assert (σ4 !! m_hash this = Some h2) as Hp4
      by (rewrite Hfr; [done|]; by apply not_eq_sym).
    assert (adapter_inv olen absorbed σ4 this msg) as Hinv_t4.
    { destruct Hinv_t as ((h & Hh & Hab) & Hr & Hbuf).
      assert (h = h2) as -> by congruence.
      repeat split; try done; try lia. by exists h2. }
    destruct (final_result_inv_ok _ _ _ out Hinv_t Hout)
      as (h & Hh & _ & Hfin3 & _).
    destruct (final_result_inv_ok _ _ _ out Hinv_t4 Hout)
      as (h' & Hh' & _ & Hfin4 & _).
    destruct (final_result_inv_ok _ _ _ out Hinv_c4 Hout_c)
      as (hc & _ & _ & Hfin_c & _).
    rewrite Hbits in Hfin3, Hfin4.
    exists σ4. do 3 eexists.
    split; [done|]. split; [done|]. split; [exact Hfin3|].
    split; [exact Hfin4|]. exact Hfin_c.
  - destruct (feed_inv_ok extra _ _ _ Hinv_t) as (σ4 & Hfeed & Hinv_t4 & Hfr).
    assert (σ4 !! m_hash copy = Some (hf_copy_state h2)) as Hc4
      by (rewrite Hfr; done).
    assert (adapter_inv olen absorbed σ4 copy msg) as Hinv_c4.
    { destruct Hinv_c as ((h & Hh & Hab) & Hr & Hbuf).
      assert (h = hf_copy_state h2) as -> by congruence.
      repeat split; try done; try lia. by eexists. }
    destruct (final_result_inv_ok _ _ _ out Hinv_c Hout_c)
      as (h & Hh & _ & Hfin3 & _).
    destruct (final_result_inv_ok _ _ _ out Hinv_c4 Hout_c)
      as (h' & Hh' & _ & Hfin4 & _).
    destruct (final_result_inv_ok _ _ _ out Hinv_t4 Hout)
      as (ht & _ & _ & Hfin_t & _).
    rewrite Hbits in Hfin_t.
    exists σ4. do 3 eexists.
    split; [done|]. split; [done|]. split; [exact Hfin3|].
    split; [exact Hfin4|]. exact Hfin_t.
Qed.

Lemma C7_witness :
  exists copy σ3 σ4 s,
    copy_state (Demo.adapter 12) Demo.heap1 = Ok (copy, σ3) /\
    m_hash copy <> Demo.p /\
    feed copy [[9]; [8]] σ3 = Ok (tt, σ4) /\
    final_result (Demo.adapter 12) [77; 77] σ4
      = Ok ((Demo.adapter 12, [10; 0]), s).
Proof.
  destruct (C7_copy_state_isolated (HS := fletcher16_spec)
              Demo.heap0 Demo.heap0 Demo.p Fletcher16.init [] 12
              (Demo.adapter 12) Demo.history [77; 77])
    as (σ2 & h2 & copy & σ3 & Hrun & Hp2 & Hcopy & Hbits & Hne & _ & _ & _ &
        Hfeed_copy & _).
  - reflexivity.
  - reflexivity.
  - reflexivity.
  - repeat constructor.
  - reflexivity.
  - destruct (Hfeed_copy [[9]; [8]]) as (σ4 & s3 & s4 & s' & Hfeed & _ & _ & Hfin & _).
    exists copy, σ3, σ4, s4.
    assert (Ok (Demo.adapter 12, Demo.heap1) = Ok (Demo.adapter 12, σ2)) as Hσ
      by (rewrite <- Hrun; reflexivity).
    injection Hσ as <-.
    split; [exact Hcopy|]. split; [exact Hne|]. split; [exact Hfeed|].
    exact Hfin.
Defined.

(** C8: [add_data] hands its bytes to the wrapped object's [update] and
    changes nothing else: the object becomes [hf_update h input], every
    other heap cell and the adapter's own fields stay as they are.  Fed in
    any number of chunks, also none, the digest that [final_result] returns
    afterwards depends only on the concatenation of the chunks. *)
Theorem C8_add_data_forwards
    {H : Type} {HF : HashFunction H} {AL : Allocator}
    {olen : Z} {digest : list Z -> list Z} {absorbed : H -> list Z -> Prop}
    {HS : HashFunctionSpec olen digest absorbed}
    (σ0 σ1 : gmap loc H) (p : loc) (h0 : H) (msg0 : list Z) (bits : Z)
    (this : Truncated_Hash) (cs : list call) (out : list Z) :
  σ0 !! p = Some h0 -> absorbed h0 msg0 ->
  Truncated_Hash_new (Some p) bits σ0 = Ok (this, σ1) ->
  Forall (call_ok this) cs ->
  Z.of_nat (length out) = output_length this ->
  let msg := fold_left absorbed_after cs msg0 in
  exists σ2 h2,
    do_calls this cs σ1 = Ok (this, σ2) /\
    σ2 !! m_hash this = Some h2 /\
    (forall input,
       add_data this input σ2
         = Ok (tt, <[m_hash this := hf_update h2 input]> σ2) /\
       do_call this (Call_add_data input) σ2
         = Ok (this, <[m_hash this := hf_update h2 input]> σ2) /\
       forall q, q <> m_hash this ->
         (<[m_hash this := hf_update h2 input]> σ2) !! q = σ2 !! q) /\
    (forall chunks, exists σ3 s,
       feed this chunks σ2 = Ok (tt, σ3) /\
       final_result this out σ3
         = Ok ((this, truncated bits (digest (msg ++ concat chunks))), s)) /\
    (forall chunks chunks', concat chunks = concat chunks' ->
       exists σ3 σ3' r s s',
         feed this chunks σ2 = Ok (tt, σ3) /\
         feed this chunks' σ2 = Ok (tt, σ3') /\
         final_result this out σ3 = Ok ((this, r), s) /\
         final_result this out σ3' = Ok ((this, r), s')).
Proof.
  intros Hp Ha Hnew Hcs Hout msg.
  destruct (constructed_history _ _ _ _ _ _ _ _ Hp Ha Hnew Hcs)
    as (_ & _ & Hbits & σ2 & Hrun & Hinv & _).
  assert (forall chunks, exists σ3 s,
            feed this chunks σ2 = Ok (tt, σ3) /\
            final_result this out σ3
              = Ok ((this, truncated bits (digest (msg ++ concat chunks))), s))
    as Hfeed.
  { intros chunks.
    destruct (feed_inv_ok chunks _ _ _ Hinv) as (σ3 & Hfeed & Hinv3 & _).
    destruct (final_result_inv_ok _ _ _ out Hinv3 Hout)
      as (h3 & _ & _ & Hfin & _).
    rewrite Hbits in Hfin. by exists σ3; eexists. }
  destruct Hinv as ((h2 & Hp2 & Ha2) & _).
  exists σ2, h2. split; [done|]. split; [done|]. split; [|split; [done|]].
  - intros input. pose proof (call_update_ok _ _ _ input Hp2) as Hupd.
    split; [exact Hupd|]. split.
    + simpl. unfold add_data. by rewrite (bind_ok _ _ _ _ _ Hupd).
    + intros q Hq. by rewrite lookup_insert_ne.
  - intros chunks chunks' Heq.
    destruct (Hfeed chunks) as (σ3 & s & Hf & Hr).
    destruct (Hfeed chunks') as (σ3' & s' & Hf' & Hr').
    rewrite <- Heq in Hr'. by exists σ3, σ3'; do 3 eexists.
Qed.

Lemma C8_witness :
  exists σ3 σ3' r s s',
    feed (Demo.adapter 12) [[4]; [5; 6]] Demo.heap1 = Ok (tt, σ3) /\
    feed (Demo.adapter 12) [[4; 5]; []; [6]] Demo.heap1 = Ok (tt, σ3') /\
    final_result (Demo.adapter 12) [77; 77] σ3
      = Ok ((Demo.adapter 12, r), s) /\
    final_result (Demo.adapter 12) [77; 77] σ3'
      = Ok ((Demo.adapter 12, r), s').
Proof.
  destruct (C8_add_data_forwards (HS := fletcher16_spec)
              Demo.heap0 Demo.heap0 Demo.p Fletcher16.init [] 12
              (Demo.adapter 12) Demo.history [77; 77])
    as (σ2 & h2 & Hrun & Hp2 & _ & _ & Hconcat).
  - reflexivity.
  - reflexivity.
  - reflexivity.
  - repeat constructor.
  - reflexivity.
  - assert (Ok (Demo.adapter 12, Demo.heap1) = Ok (Demo.adapter 12, σ2)) as Hσ
      by (rewrite <- Hrun; reflexivity).
    injection Hσ as <-.
    apply (Hconcat [[4]; [5; 6]] [[4; 5]; []; [6]]). reflexivity.
Defined.

(** C9: [clear] on a constructed adapter, after any history, replaces the
    wrapped object by [hf_clear] of it, an object that absorbed nothing,
    and changes no other heap cell and no field of the adapter.  From then
    on the adapter returns, history for history, the same bytes as an
    adapter newly built with the same bit length on a fresh hash object,
    and its fields other than the address equal those of the new one. *)
Theorem C9_clear_restores_fresh
    {H : Type} {HF : HashFunction H} {AL : Allocator}
    {olen : Z} {digest : list Z -> list Z} {absorbed : H -> list Z -> Prop}
    {HS : HashFunctionSpec olen digest absorbed}
    (σ0 σ1 : gmap loc H) (p : loc) (h0 : H) (msg0 : list Z) (bits : Z)
    (this : Truncated_Hash) (cs : list call)
    (τ0 τ1 : gmap loc H) (q : loc) (hq : H) (fresh_one : Truncated_Hash) :
  σ0 !! p = Some h0 -> absorbed h0 msg0 ->
  Truncated_Hash_new (Some p) bits σ0 = Ok (this, σ1) ->
  Forall (call_ok this) cs ->
  τ0 !! q = Some hq -> absorbed hq [] ->
  Truncated_Hash_new (Some q) bits τ0 = Ok (fresh_one, τ1) ->
  exists σ2 h2 σ3,
    do_calls this cs σ1 = Ok (this, σ2) /\
    σ2 !! m_hash this = Some h2 /\
    clear this σ2 = Ok (tt, σ3) /\
    do_call this Call_clear σ2 = Ok (this, σ3) /\
    σ3 = <[m_hash this := hf_clear h2]> σ2 /\
    absorbed (hf_clear h2) [] /\
    m_output_bits this = bits /\
    m_output_bits fresh_one = m_output_bits this /\
    m_buffer fresh_one = m_buffer this /\
    (forall cs' out,
       Forall (call_ok this) cs' ->
       Z.of_nat (length out) = output_length this ->
       exists σ4 τ2 r s s',
         do_calls this cs' σ3 = Ok (this, σ4) /\
         do_calls fresh_one cs' τ1 = Ok (fresh_one, τ2) /\
         final_result this out σ4 = Ok ((this, r), s) /\
         final_result fresh_one out τ2 = Ok ((fresh_one, r), s')).
Proof.
  intros Hp Ha Hnew Hcs Hq Haq Hnew_q.
  destruct (constructed_history _ _ _ _ _ _ _ _ Hp Ha Hnew Hcs)
    as (_ & _ & Hbits & σ2 & Hrun & Hinv & _).
  destruct (Truncated_Hash_new_inv _ _ _ _ _ _ _ Hq Haq Hnew_q)
    as (_ & _ & Hbits_q & Hinv_q).
  destruct (clear_ok _ _ _ Hinv) as (h2 & Hp2 & Hclear & Hinv3).
  assert (output_length fresh_one = output_length this) as Hlen
    by (unfold output_length; by rewrite Hbits, Hbits_q).
  exists σ2, h2, (<[m_hash this := hf_clear h2]> σ2).
  split; [done|]. split; [done|]. split; [done|]. split.
  { simpl. by rewrite (bind_ok _ _ _ _ _ Hclear). }
  split; [done|]. split.
  { destruct Hinv3 as ((h & Hh & Hab) & _).
    rewrite lookup_insert_eq in Hh. by injection Hh as <-. }
  split; [done|]. split; [congruence|]. split.
  { destruct Hinv as (_ & _ & ->). by destruct Hinv_q as (_ & _ & ->). }
  intros cs' out Hcs' Hout.
  assert (Forall (call_ok fresh_one) cs') as Hcs_q.
  { eapply Forall_impl; [exact Hcs'|]. intros [| |]; simpl; try done.
    by rewrite Hlen. }
  destruct (do_calls_ok cs' _ _ _ Hinv3 Hcs') as (σ4 & Hrun4 & Hinv4 & _).
  destruct (do_calls_ok cs' _ _ _ Hinv_q Hcs_q) as (τ2 & Hrun_q & Hinv_q2 & _).
  destruct (final_result_inv_ok _ _ _ out Hinv4 Hout)
    as (? & _ & _ & Hfin & _).
  rewrite <- Hlen in Hout.
  destruct (final_result_inv_ok _ _ _ out Hinv_q2 Hout)
    as (? & _ & _ & Hfin_q & _).
  exists σ4, τ2. do 3 eexists.
  split; [done|]. split; [done|]. split; [exact Hfin|].
  rewrite Hfin_q, Hbits_q, Hbits. done.
Qed.

Lemma C9_witness :
  clear (Demo.adapter 12) Demo.heap1 = Ok (tt, Demo.heap0) /\
  exists r s s',
    final_result (Demo.adapter 12) [77; 77] Demo.heap1
      = Ok ((Demo.adapter 12, r), s) /\
    final_result (Demo.adapter_q 12) [77; 77] Demo.heap_q1
      = Ok ((Demo.adapter_q 12, r), s').
Proof.
  destruct (C9_clear_restores_fresh (HS := fletcher16_spec)
              Demo.heap0 Demo.heap0 Demo.p Fletcher16.init [] 12
              (Demo.adapter 12) Demo.history
              Demo.heap_q0 Demo.heap_q0 Demo.q Fletcher16.init
              (Demo.adapter_q 12))
    as (σ2 & h2 & σ3 & Hrun & Hp2 & Hclear & _ & _ & _ & _ & _ & _ & Hsame).
  - reflexivity.
  - reflexivity.
  - reflexivity.
  - repeat constructor.
  - reflexivity.
  - reflexivity.
  - reflexivity.
  - assert (Ok (Demo.adapter 12, Demo.heap1) = Ok (Demo.adapter 12, σ2)) as Hσ
      by (rewrite <- Hrun; reflexivity).
    injection Hσ as <-.
    assert (Ok (tt, Demo.heap0) = Ok (tt, σ3)) as Hσ3
      by (rewrite <- Hclear; reflexivity).
    injection Hσ3 as <-.
    split; [exact Hclear|].
    destruct (Hsame Demo.history [77; 77])
      as (σ4 & τ2 & r & s & s' & H4 & Hq & Hf & Hfq).
    + repeat constructor.
    + reflexivity.
    + assert (Ok (Demo.adapter 12, Demo.heap1) = Ok (Demo.adapter 12, σ4))
        as E4 by (rewrite <- H4; reflexivity).
      assert (Ok (Demo.adapter_q 12, Demo.heap_q1) = Ok (Demo.adapter_q 12, τ2))
        as Eq by (rewrite <- Hq; reflexivity).
      injection E4 as <-. injection Eq as <-. by exists r, s, s'.
Defined.

(** C10: [final_result] is safe on every adapter the constructor accepted,
    after any history of calls and into any span of at least
    [output_length] bytes: the assertion on the wrapped hash's bit length
    holds, the scratch buffer has the wrapped hash's output length and the
    bytes copied from it lie inside it, [output_length] is at least 1 so the
    span has a last byte, and the call returns normally: it neither throws
    nor runs into undefined behaviour. *)
Theorem C10_final_result_safe
    {H : Type} {HF : HashFunction H} {AL : Allocator}
    {olen : Z} {digest : list Z -> list Z} {absorbed : H -> list Z -> Prop}
    {HS : HashFunctionSpec olen digest absorbed}
    (σ0 σ1 : gmap loc H) (p : loc) (h0 : H) (msg0 : list Z) (bits : Z)
    (this : Truncated_Hash) (cs : list call) (out : list Z) :
  σ0 !! p = Some h0 -> absorbed h0 msg0 ->
  Truncated_Hash_new (Some p) bits σ0 = Ok (this, σ1) ->
  Forall (call_ok this) cs ->
  output_length this <= Z.of_nat (length out) ->
  exists σ2 h2,
    do_calls this cs σ1 = Ok (this, σ2) /\
    σ2 !! m_hash this = Some h2 /\
    1 <= m_output_bits this <= 8 * hf_output_length h2 /\
    m_output_bits this <= SizeT.mul (hf_output_length h2) 8 /\
    Z.of_nat (length (m_buffer this)) = hf_output_length h2 /\
    1 <= output_length this <= Z.of_nat (length (m_buffer this)) /\
    exists r σ3, final_result this out σ2 = Ok (r, σ3).
Proof.
  intros Hp Ha Hnew Hcs Hout.
  destruct (constructed_history _ _ _ _ _ _ _ _ Hp Ha Hnew Hcs)
    as (_ & _ & Hbits & σ2 & Hrun & Hinv & _).
  destruct (final_result_span _ _ _ out Hinv Hout) as (h2 & Hp2 & Hfin).
  destruct (adapter_output_length _ _ _ Hinv) as [_ Hlen].
  destruct Hinv as ((h2' & Hp2' & Ha2) & Hr & Hbuf).
  assert (h2' = h2) as -> by congruence.
  pose proof hs_olen_nonneg as Hol.
  exists σ2, h2. rewrite (hs_output_length _ _ Ha2), native_bits_no_wrap.
  rewrite Hbuf, length_replicate.
  split; [done|]. split; [done|]. split; [lia|]. split; [lia|].
  split; [lia|]. split; [lia|]. by do 2 eexists.
Qed.

Lemma C10_witness :
  exists r σ3,
    final_result (Demo.adapter 12) [77; 77; 77] Demo.heap1 = Ok (r, σ3).
Proof.
  destruct (C10_final_result_safe (HS := fletcher16_spec)
              Demo.heap0 Demo.heap0 Demo.p Fletcher16.init [] 12
              (Demo.adapter 12) Demo.history [77; 77; 77])
    as (σ2 & h2 & Hrun & _ & _ & _ & _ & _ & r & σ3 & Hfin).
  - reflexivity.
  - reflexivity.
  - reflexivity.
  - repeat constructor.
  - vm_compute. discriminate.
  - assert (Ok (Demo.adapter 12, Demo.heap1) = Ok (Demo.adapter 12, σ2)) as Hσ
      by (rewrite <- Hrun; reflexivity).
    injection Hσ as <-. by exists r, σ3.
Defined.

(** * Further properties of the code *)

(** ** What a normal return says, whatever the hash object does *)

Section Inversion.

Context {H : Type} {HF : HashFunction H} {AL : Allocator}.
Implicit Types σ : gmap loc H.

Lemma deref_inv p σ h σ' :
  deref p σ = Ok (h, σ') -> σ !! p = Some h /\ σ' = σ.
Proof. unfold deref. destruct (σ !! p); [|done]. by intros [= -> ->]. Qed.

Lemma store_inv p (h : H) σ u σ' :
  store p h σ = Ok (u, σ') -> is_Some (σ !! p) /\ σ' = <[p := h]> σ.
Proof. unfold store. destruct (σ !! p); [|done]. intros [= _ <-]. eauto. Qed.

Lemma arg_check_inv cond msg σ u σ' :
  BOTAN_ARG_CHECK cond msg σ = Ok (u, σ') -> cond = true /\ σ' = σ.
Proof. destruct cond; [|done]. by intros [= _ <-]. Qed.

Lemma assert_nomsg_inv cond σ u σ' :
  BOTAN_ASSERT_NOMSG cond σ = Ok (u, σ') -> cond = true /\ σ' = σ.
Proof. destruct cond; [|done]. by intros [= _ <-]. Qed.

Lemma call_output_length_inv p σ n σ' :
  call_output_length p σ = Ok (n, σ') ->
  exists h, σ !! p = Some h /\ n = hf_output_length h /\ σ' = σ.
Proof.
  unfold call_output_length. intros (h & σa & [Hp ->]%deref_inv & Hret)%bind_ok_inv.
  injection Hret as <- <-. eauto.
Qed.

Lemma call_update_inv p input σ u σ' :
  call_update p input σ = Ok (u, σ') ->
  exists h, σ !! p = Some h /\ σ' = <[p := hf_update h input]> σ.
Proof.
  unfold call_update. intros (h & σa & [Hp ->]%deref_inv & [_ ->]%store_inv)%bind_ok_inv.
  eauto.
Qed.

Lemma call_clear_inv p σ u σ' :
  call_clear p σ = Ok (u, σ') ->
  exists h, σ !! p = Some h /\ σ' = <[p := hf_clear h]> σ.
Proof.
  unfold call_clear. intros (h & σa & [Hp ->]%deref_inv & [_ ->]%store_inv)%bind_ok_inv.
  eauto.
Qed.

Lemma call_name_inv p σ s σ' :
  call_name p σ = Ok (s, σ') ->
  exists h, σ !! p = Some h /\ s = hf_name h /\ σ' = σ.
Proof.
  unfold call_name. intros (h & σa & [Hp ->]%deref_inv & Hret)%bind_ok_inv.
  injection Hret as <- <-. eauto.
Qed.

Lemma call_copy_state_inv p σ p' σ' :
  call_copy_state p σ = Ok (p', σ') ->
  exists h, σ !! p = Some h /\ p' = fresh (dom σ) /\
    σ' = <[p' := hf_copy_state h]> σ.
Proof.
  unfold call_copy_state. intros (h & σa & [Hp ->]%deref_inv & Hret)%bind_ok_inv.
  injection Hret as <- <-. eauto.
Qed.

Lemma call_new_object_inv p σ p' σ' :
  call_new_object p σ = Ok (p', σ') ->
  exists h, σ !! p = Some h /\ p' = fresh (dom σ) /\
    σ' = <[p' := hf_new_object h]> σ.
Proof.
  unfold call_new_object. intros (h & σa & [Hp ->]%deref_inv & Hret)%bind_ok_inv.
  injection Hret as <- <-. eauto.
Qed.

Lemma call_final_inv p buf σ buf' σ' :
  call_final p buf σ = Ok (buf', σ') ->
  exists h, σ !! p = Some h /\
    hf_output_length h <= Z.of_nat (length buf) /\
    buf' = fst (hf_final_result h) ++ drop (length (fst (hf_final_result h))) buf /\
    σ' = <[p := snd (hf_final_result h)]> σ.
Proof.
  unfold call_final. intros (h & σa & [Hp ->]%deref_inv & Hrun)%bind_ok_inv.
  apply bind_ok_inv in Hrun as (? & σb & [Hc ->]%arg_check_inv & Hrun).
  destruct (hf_final_result h) as [d h'] eqn:Hf.
  apply bind_ok_inv in Hrun as (? & σc & [_ ->]%store_inv & Hret).
  injection Hret as <- <-. exists h. rewrite Hf. simpl.
  apply Z.leb_le in Hc. by repeat split.
Qed.

Lemma copy_n_inv (src : list Z) n (out out' : list Z) σ σ' :
  copy_n src n out σ = Ok (out', σ') ->
  n <= Z.of_nat (length src) /\ n <= Z.of_nat (length out) /\
  out' = take (Z.to_nat n) src ++ drop (Z.to_nat n) out /\ σ' = σ.
Proof.
  unfold copy_n. destruct (n <=? _) eqn:Hs; [|done].
  destruct (n <=? Z.of_nat (length out)) eqn:Ho; [|done]. simpl.
  intros [= <- <-]. apply Z.leb_le in Hs, Ho. eauto.
Qed.

Lemma and_back_inv (out out' : list Z) mask σ σ' :
  and_back out mask σ = Ok (out', σ') ->
  exists x, last out = Some x /\
    out' = <[Nat.pred (length out) := to_uint8 (Z.land x mask)]> out /\ σ' = σ.
Proof.
  unfold and_back. destruct (last out) as [x|]; [|done].
  intros [= <- <-]. eauto.
Qed.

(** The constructor, read backwards from a normal return. *)
Lemma Truncated_Hash_new_Ok_inv hash bits σ this σ' :
  Truncated_Hash_new hash bits σ = Ok (this, σ') ->
  σ' = σ /\
  exists p h, hash = Some p /\ σ !! p = Some h /\
    this = {| m_hash := p; m_output_bits := bits;
              m_buffer := replicate (Z.to_nat (hf_output_length h)) 0 |} /\
    0 < bits <= SizeT.mul (hf_output_length h) 8 /\
    can_allocate (hf_output_length h) = true.
Proof.
  destruct hash as [p|]; [|done]. intros Hrun.
  destruct (σ !! p) as [h|] eqn:Hp.
  - rewrite (Truncated_Hash_new_cases _ _ _ _ Hp) in Hrun.
    destruct (can_allocate (hf_output_length h)) eqn:Hcan; [|done].
    destruct (Z.ltb_spec 0 bits); [|done].
    destruct (Z.leb_spec bits (SizeT.mul (hf_output_length h) 8)); [|done].
    injection Hrun as <- <-. split; [done|]. by exists p, h.
  - unfold Truncated_Hash_new in Hrun.
    apply bind_ok_inv in Hrun as (n & σa & (h & Hh & _)%call_output_length_inv & _).
    congruence.
Qed.

End Inversion.

(** ** The constructor's outcomes *)

(** X1: the constructor's outcomes, whatever the hash object and the
    allocator are.  A normal return leaves the heap as it was and yields
    the given pointer and bit length with a zero buffer of the hash's
    output length; it happens only when that buffer could be allocated and
    [0 < bits <= output_length * 8] (the product taken in [size_t]).  An
    exception is [Bad_Alloc] exactly when the buffer cannot be allocated,
    and then for every [bits], the allocation coming before both checks;
    otherwise it is one of the two argument errors, the first only when
    [bits] is not positive and the second only when it is; it is never an
    internal error.  The behaviour is undefined exactly for a null or
    dangling pointer. *)
Theorem Truncated_Hash_new_outcomes
    {H : Type} {HF : HashFunction H} {AL : Allocator}
    (hash : option loc) (bits : Z) (σ : gmap loc H) :
  (forall this σ', Truncated_Hash_new hash bits σ = Ok (this, σ') ->
     σ' = σ /\
     exists p h, hash = Some p /\ σ !! p = Some h /\
       this = {| m_hash := p; m_output_bits := bits;
                 m_buffer := replicate (Z.to_nat (hf_output_length h)) 0 |} /\
       0 < bits <= SizeT.mul (hf_output_length h) 8 /\
       can_allocate (hf_output_length h) = true) /\
  (forall e, Truncated_Hash_new hash bits σ = Throw e ->
     exists p h, hash = Some p /\ σ !! p = Some h /\
       ((e = Bad_Alloc /\ can_allocate (hf_output_length h) = false) \/
        (e = Invalid_Argument msg_empty /\ bits <= 0 /\
         can_allocate (hf_output_length h) = true) \/
        (e = Invalid_Argument msg_too_short /\ 0 < bits /\
         can_allocate (hf_output_length h) = true))) /\
  (forall p h, hash = Some p -> σ !! p = Some h ->
     can_allocate (hf_output_length h) = false ->
     Truncated_Hash_new hash bits σ = Throw Bad_Alloc) /\
  (Truncated_Hash_new hash bits σ = Undefined <->
     forall p, hash = Some p -> σ !! p = None).
Proof.
  split; [|split; [|split]].
  - intros this σ'. apply Truncated_Hash_new_Ok_inv.
  - intros e Hrun. destruct hash as [p|]; [|done].
    destruct (σ !! p) as [h|] eqn:Hp.
    + exists p, h. split; [done|]. split; [done|].
      rewrite (Truncated_Hash_new_cases _ _ _ _ Hp) in Hrun.
      destruct (can_allocate (hf_output_length h)).
      * destruct (Z.ltb_spec 0 bits).
        -- destruct (bits <=? _); [done|]. injection Hrun as <-.
           by right; right.
        -- injection Hrun as <-. by right; left.
      * injection Hrun as <-. by left.
    + unfold Truncated_Hash_new, call_output_length in Hrun.
      rewrite (bind_undefined _ _ σ) in Hrun; [done|].
      apply bind_undefined. unfold deref. by rewrite Hp.
  - intros p h -> Hp Hcan. rewrite (Truncated_Hash_new_cases _ _ _ _ Hp).
    by rewrite Hcan.
  - destruct hash as [p|]; [|done].
    destruct (σ !! p) as [h|] eqn:Hp.
    + rewrite (Truncated_Hash_new_cases _ _ _ _ Hp).
      split.
      * destruct (can_allocate _); [|done].
        destruct (0 <? bits); [|done]. by destruct (bits <=? _).
      * intros Hnone. specialize (Hnone p eq_refl). congruence.
    + split; [by intros _ p' [= <-]|]. intros _.
      unfold Truncated_Hash_new, call_output_length.
      apply bind_undefined, bind_undefined. unfold deref. by rewrite Hp.
Qed.

(** ** What the member functions leave alone *)

(** X2: no member function touches a heap cell other than the adapter's own
    hash object: [add_data], [clear] and [final_result] change at most the
    cell at [m_hash]; [name] changes nothing; [copy_state] and
    [new_object] add one cell at an address that was free, give it to the
    adapter they return, and leave every existing cell, the original's
    hash object included, as it was. *)
Theorem members_frame
    {H : Type} {HF : HashFunction H} {AL : Allocator}
    (this : Truncated_Hash) (σ σ' : gmap loc H) :
  (forall input u, add_data this input σ = Ok (u, σ') ->
     forall q, q <> m_hash this -> σ' !! q = σ !! q) /\
  (forall u, clear this σ = Ok (u, σ') ->
     forall q, q <> m_hash this -> σ' !! q = σ !! q) /\
  (forall out r, final_result this out σ = Ok (r, σ') ->
     forall q, q <> m_hash this -> σ' !! q = σ !! q) /\
  (forall s, name this σ = Ok (s, σ') -> σ' = σ) /\
  (forall copy, copy_state this σ = Ok (copy, σ') ->
     σ !! m_hash copy = None /\ is_Some (σ' !! m_hash copy) /\
     m_output_bits copy = m_output_bits this /\
     forall q, q <> m_hash copy -> σ' !! q = σ !! q) /\
  (forall other, new_object this σ = Ok (other, σ') ->
     σ !! m_hash other = None /\ is_Some (σ' !! m_hash other) /\
     m_output_bits other = m_output_bits this /\
     forall q, q <> m_hash other -> σ' !! q = σ !! q).
Proof.
  split; [|split; [|split; [|split; [|split]]]].
  - intros input u (h & _ & ->)%call_update_inv q Hq.
    by rewrite lookup_insert_ne.
  - intros u (h & _ & ->)%call_clear_inv q Hq. by rewrite lookup_insert_ne.
  - intros out r Hrun q Hq. unfold final_result in Hrun.
    apply bind_ok_inv in Hrun
      as (n & σa & (h & _ & _ & ->)%call_output_length_inv & Hrun).
    apply bind_ok_inv in Hrun as (? & σb & [_ ->]%assert_nomsg_inv & Hrun).
    apply bind_ok_inv in Hrun
      as (buf & σc & (h' & _ & _ & _ & ->)%call_final_inv & Hrun).
    apply bind_ok_inv in Hrun as (o1 & σd & (_ & _ & _ & ->)%copy_n_inv & Hrun).
    apply bind_ok_inv in Hrun as (o2 & σe & (y & _ & _ & ->)%and_back_inv & Hrun).
    injection Hrun as _ <-. by rewrite lookup_insert_ne.
  - intros s Hrun. unfold name in Hrun.
    apply bind_ok_inv in Hrun as (i & σa & (h & _ & _ & ->)%call_name_inv & Hrun).
    by injection Hrun as _ <-.
  - intros copy Hrun. unfold copy_state in Hrun.
    apply bind_ok_inv in Hrun
      as (p' & σa & (h & _ & -> & ->)%call_copy_state_inv & Hrun).
    apply Truncated_Hash_new_Ok_inv in Hrun as (-> & p & h' & [= <-] & _ & -> & _).
    simpl. split; [apply alloc_fresh|]. rewrite lookup_insert_eq.
    split; [eauto|]. split; [done|].
    intros q Hq. by rewrite lookup_insert_ne.
  - intros other Hrun. unfold new_object in Hrun.
    apply bind_ok_inv in Hrun
      as (p' & σa & (h & _ & -> & ->)%call_new_object_inv & Hrun).
    apply Truncated_Hash_new_Ok_inv in Hrun as (-> & p & h' & [= <-] & _ & -> & _).
    simpl. split; [apply alloc_fresh|]. rewrite lookup_insert_eq.
    split; [eauto|]. split; [done|].
    intros q Hq. by rewrite lookup_insert_ne.
Qed.

(** ** [new_object] *)

Section NewObject.

Context {H : Type} {HF : HashFunction H} {AL : Allocator}.
Context {olen : Z} {digest : list Z -> list Z} {absorbed : H -> list Z -> Prop}.
Context {HS : HashFunctionSpec olen digest absorbed}.
Implicit Types σ : gmap loc H.

Lemma new_object_ok σ this msg :
  adapter_inv olen absorbed σ this msg ->
  can_allocate olen = true ->
  exists h,
    let p := fresh (dom σ) in
    let σ' := <[p := hf_new_object h]> σ in
    let other := {| m_hash := p; m_output_bits := m_output_bits this;
                    m_buffer := replicate (Z.to_nat olen) 0 |} in
    σ !! m_hash this = Some h /\
    p <> m_hash this /\
    new_object this σ = Ok (other, σ') /\
    adapter_inv olen absorbed σ' other [] /\
    adapter_inv olen absorbed σ' this msg.
Proof.
  intros ((h & Hp & Ha) & Hb & Hbuf) Hcan. exists h. simpl.
  assert (fresh (dom σ) <> m_hash this) as Hne.
  { intros Heq. pose proof (alloc_fresh σ) as Hf. congruence. }
  split; [done|]. split; [done|]. split; [|split].
  - unfold new_object.
    rewrite (bind_ok _ _ _ _ _ (call_new_object_ok _ _ _ Hp)).
    eapply Truncated_Hash_new_ok; [apply lookup_insert_eq| |done|done].
    by eapply hs_new_object.
  - repeat split; simpl; try lia.
    exists (hf_new_object h). rewrite lookup_insert_eq.
    split; [done|]. by eapply hs_new_object.
  - repeat split; try done; try lia.
    exists h. by rewrite lookup_insert_ne.
Qed.

(** An adapter keeps its invariant when other cells of the heap change. *)
Lemma adapter_inv_frame σ σ' this msg :
  adapter_inv olen absorbed σ this msg ->
  σ' !! m_hash this = σ !! m_hash this ->
  adapter_inv olen absorbed σ' this msg.
Proof.
  intros ((h & Hp & Ha) & Hb & Hbuf) Heq.
  repeat split; try done; try lia. exists h. by rewrite Heq.
Qed.

End NewObject.

(** X3: [new_object] on a constructed adapter, after any history, never fails:
    it builds an adapter with the same bit length on a new hash object
    that absorbed nothing, and leaves the original's object alone.  What
    the new adapter returns for a message does not depend on what the
    original had absorbed, and the original still returns the digest of
    what it had absorbed. *)
Theorem new_object_is_fresh
    {H : Type} {HF : HashFunction H} {AL : Allocator}
    {olen : Z} {digest : list Z -> list Z} {absorbed : H -> list Z -> Prop}
    {HS : HashFunctionSpec olen digest absorbed}
    (σ0 σ1 : gmap loc H) (p : loc) (h0 : H) (msg0 : list Z) (bits : Z)
    (this : Truncated_Hash) (cs : list call) (out : list Z) :
  σ0 !! p = Some h0 -> absorbed h0 msg0 ->
  Truncated_Hash_new (Some p) bits σ0 = Ok (this, σ1) ->
  Forall (call_ok this) cs ->
  Z.of_nat (length out) = output_length this ->
  let msg := fold_left absorbed_after cs msg0 in
  exists σ2 h2 other σ3,
    do_calls this cs σ1 = Ok (this, σ2) /\
    σ2 !! m_hash this = Some h2 /\
    new_object this σ2 = Ok (other, σ3) /\
    m_output_bits other = bits /\
    m_buffer other = m_buffer this /\
    m_hash other <> m_hash this /\
    σ2 !! m_hash other = None /\
    σ3 !! m_hash other = Some (hf_new_object h2) /\
    σ3 !! m_hash this = Some h2 /\
    (forall chunks, exists σ4 s s',
       feed other chunks σ3 = Ok (tt, σ4) /\
       final_result other out σ4
         = Ok ((other, truncated bits (digest (concat chunks))), s) /\
       final_result this out σ4
         = Ok ((this, truncated bits (digest msg)), s')).
Proof.
  intros Hp Ha Hnew Hcs Hout msg.
  destruct (constructed_history _ _ _ _ _ _ _ _ Hp Ha Hnew Hcs)
    as (_ & _ & Hbits & σ2 & Hrun & Hinv & _).
  pose proof (Truncated_Hash_new_allocated _ _ _ _ _ _ _ Hp Ha Hnew) as Hcan.
  destruct (new_object_ok _ _ _ Hinv Hcan)
    as (h2 & Hp2 & Hne & Hnewobj & Hinv_o & Hinv_t).
  rewrite Hbits in Hnewobj, Hinv_o.
  set (other := {| m_hash := fresh (dom σ2); m_output_bits := bits;
                   m_buffer := replicate (Z.to_nat olen) 0 |}) in *.
  set (σ3 := <[fresh (dom σ2) := hf_new_object h2]> σ2) in *.
  assert (Z.of_nat (length out) = output_length other) as Hout_o
    by (rewrite Hout; unfold output_length; by rewrite Hbits).
  exists σ2, h2, other, σ3.
  split; [done|]. split; [done|]. split; [done|]. split; [done|].
  split; [by destruct Hinv as (_ & _ & ->)|].
  split; [done|]. split; [apply alloc_fresh|].
  split; [subst σ3; apply lookup_insert_eq|].
  split; [subst σ3; by rewrite lookup_insert_ne|].
  intros chunks.
  destruct (feed_inv_ok chunks _ _ _ Hinv_o) as (σ4 & Hfeed & Hinv_o4 & Hfr).
  assert (adapter_inv olen absorbed σ4 this msg) as Hinv_t4.
  { eapply adapter_inv_frame; [exact Hinv_t|]. apply Hfr. by apply not_eq_sym. }
  destruct (final_result_inv_ok _ _ _ out Hinv_o4 Hout_o)
    as (? & _ & _ & Hfin_o & _).
  destruct (final_result_inv_ok _ _ _ out Hinv_t4 Hout)
    as (? & _ & _ & Hfin_t & _).
  rewrite Hbits in Hfin_t.
  exists σ4. do 2 eexists. split; [done|]. split; [exact Hfin_o|exact Hfin_t].
Qed.

Lemma new_object_is_fresh_witness :
  exists other σ3 σ4 s,
    new_object (Demo.adapter 12) Demo.heap1 = Ok (other, σ3) /\
    m_hash other <> Demo.p /\
    feed other [[1]; [2; 3]] σ3 = Ok (tt, σ4) /\
    final_result other [77; 77] σ4 = Ok ((other, [10; 0]), s).
Proof.
  destruct (new_object_is_fresh (HS := fletcher16_spec)
              Demo.heap0 Demo.heap0 Demo.p Fletcher16.init [] 12
              (Demo.adapter 12) Demo.history [77; 77])
    as (σ2 & h2 & other & σ3 & Hrun & _ & Hnew & _ & _ & Hne & _ & _ & _ & Hfeed).
  - reflexivity.
  - reflexivity.
  - reflexivity.
  - repeat constructor.
  - reflexivity.
  - destruct (Hfeed [[1]; [2; 3]]) as (σ4 & s & s' & Hf & Hfin & _).
    exists other, σ3, σ4, s.
    assert (Ok (Demo.adapter 12, Demo.heap1) = Ok (Demo.adapter 12, σ2)) as Hσ
      by (rewrite <- Hrun; reflexivity).
    injection Hσ as <-.
    split; [exact Hnew|]. split; [exact Hne|]. split; [exact Hf|]. exact Hfin.
Defined.

(** ** [final_result] and the size of the caller's span *)

Lemma last_drop_lt {A : Type} (l : list A) (n : nat) :
  (n < length l)%nat -> last (drop n l) = last l.
Proof.
  intros Hn. rewrite !last_lookup, length_drop, lookup_drop. f_equal. lia.
Qed.

(** X4: a span shorter than [output_length]: no check catches it, and the copy
    runs past the end of the span.  On a constructed adapter, after any
    history, the call is undefined behaviour; it is never an exception. *)
Theorem final_result_short_span_undefined
    {H : Type} {HF : HashFunction H} {AL : Allocator}
    {olen : Z} {digest : list Z -> list Z} {absorbed : H -> list Z -> Prop}
    {HS : HashFunctionSpec olen digest absorbed}
    (σ0 σ1 : gmap loc H) (p : loc) (h0 : H) (msg0 : list Z) (bits : Z)
    (this : Truncated_Hash) (cs : list call) (out : list Z) :
  σ0 !! p = Some h0 -> absorbed h0 msg0 ->
  Truncated_Hash_new (Some p) bits σ0 = Ok (this, σ1) ->
  Forall (call_ok this) cs ->
  Z.of_nat (length out) < output_length this ->
  exists σ2,
    do_calls this cs σ1 = Ok (this, σ2) /\
    final_result this out σ2 = Undefined.
Proof.
  intros Hp Ha Hnew Hcs Hout.
  destruct (constructed_history _ _ _ _ _ _ _ _ Hp Ha Hnew Hcs)
    as (_ & _ & Hbits & σ2 & Hrun & Hinv & _).
  exists σ2. split; [done|].
  destruct (adapter_output_length _ _ _ Hinv) as [_ Hlen].
  destruct Hinv as ((h & Hp2 & Ha2) & Hb & Hbuf).
  unfold final_result.
  rewrite (bind_ok _ _ _ _ _ (call_output_length_ok _ _ _ Hp2)).
  rewrite (hs_output_length _ _ Ha2), native_bits_no_wrap.
  rewrite (proj2 (Z.leb_le (m_output_bits this) _)) by lia.
  rewrite (bind_ok _ _ _ _ _ (assert_nomsg_true _)).
  erewrite bind_ok; last first.
  { apply call_final_ok; [done|].
    rewrite (hs_output_length _ _ Ha2), Hbuf, length_replicate. lia. }
  apply bind_undefined. unfold copy_n.
  rewrite (proj2 (Z.leb_gt (output_length this) (Z.of_nat (length out)))) by done.
  by rewrite andb_false_r.
Qed.

Lemma final_result_short_span_undefined_witness :
  final_result (Demo.adapter 12) [77] Demo.heap1 = Undefined.
Proof.
  destruct (final_result_short_span_undefined (HS := fletcher16_spec)
              Demo.heap0 Demo.heap0 Demo.p Fletcher16.init [] 12
              (Demo.adapter 12) Demo.history [77])
    as (σ2 & Hrun & Hfin).
  - reflexivity.
  - reflexivity.
  - reflexivity.
  - repeat constructor.
  - vm_compute. reflexivity.
  - assert (Ok (Demo.adapter 12, Demo.heap1) = Ok (Demo.adapter 12, σ2)) as Hσ
      by (rewrite <- Hrun; reflexivity).
    injection Hσ as <-. exact Hfin.
Defined.

(** X5: a span longer than [output_length]: [out.back()] is the last byte of
    the span, not of the digest.  On a constructed adapter, after any
    history, the call returns a span of the same size whose first
    [output_length] bytes are the digest's, all unmasked, whose last byte
    is the caller's old last byte ANDed with the mask, and whose bytes in
    between are untouched. *)
Theorem final_result_long_span_masks_span_end
    {H : Type} {HF : HashFunction H} {AL : Allocator}
    {olen : Z} {digest : list Z -> list Z} {absorbed : H -> list Z -> Prop}
    {HS : HashFunctionSpec olen digest absorbed}
    (σ0 σ1 : gmap loc H) (p : loc) (h0 : H) (msg0 : list Z) (bits : Z)
    (this : Truncated_Hash) (cs : list call) (out : list Z) :
  σ0 !! p = Some h0 -> absorbed h0 msg0 ->
  Truncated_Hash_new (Some p) bits σ0 = Ok (this, σ1) ->
  Forall (call_ok this) cs ->
  output_length this < Z.of_nat (length out) ->
  let n := Z.to_nat (output_length this) in
  let k := (bits - 1) mod 8 + 1 in
  exists σ2 h2 σ3 out',
    do_calls this cs σ1 = Ok (this, σ2) /\
    σ2 !! m_hash this = Some h2 /\
    final_result this out σ2 = Ok ((this, out'), σ3) /\
    let native := fst (hf_final_result h2) in
    length out' = length out /\
    (forall i : nat, (i < n)%nat -> out' !! i = native !! i) /\
    (forall i : nat, (n <= i)%nat -> (S i < length out)%nat ->
       out' !! i = out !! i) /\
    (exists x, last out = Some x /\
               last out' = Some (Z.land x (spec_mask k))).
Proof.
  intros Hp Ha Hnew Hcs Hout n k.
  destruct (constructed_history _ _ _ _ _ _ _ _ Hp Ha Hnew Hcs)
    as (_ & _ & Hbits & σ2 & Hrun & Hinv & _).
  destruct (final_result_span _ _ _ out Hinv) as (h2 & Hp2 & Hfin); [lia|].
  rewrite (finalized_id _ _ _ Hinv), Hbits in Hfin. fold n k in Hfin.
  destruct (adapter_output_length _ _ _ Hinv) as [_ Hlen].
  destruct Hinv as ((h2' & Hp2' & Ha2) & _).
  assert (h2' = h2) as -> by congruence.
  exists σ2, h2. do 2 eexists.
  split; [done|]. split; [done|]. split; [exact Hfin|].
  rewrite (hs_final_digest _ _ Ha2). simpl.
  set (d := digest (fold_left absorbed_after cs msg0)).
  pose proof (hs_digest_length (fold_left absorbed_after cs msg0)) as Hd.
  fold d in Hd.
  assert (length (take n d) = n) as Htake by (rewrite length_take; lia).
  assert (length (take n d ++ drop n out) = length out) as Hl
    by (rewrite length_app, Htake, length_drop; lia).
  split; [by rewrite mask_last_length|]. split; [|split].
  - intros i Hi. rewrite mask_last_lookup_lt by lia.
    rewrite lookup_app_l by lia. apply lookup_take_lt. lia.
  - intros i Hn Hi. rewrite mask_last_lookup_lt by lia.
    rewrite lookup_app_r by lia. rewrite Htake, lookup_drop. f_equal. lia.
  - destruct (last out) as [x|] eqn:Hlast.
    + exists x. split; [done|].
      assert (last (take n d ++ drop n out) = Some x) as Hlast'.
      { rewrite last_app, last_drop_lt by lia. by rewrite Hlast. }
      rewrite last_lookup, mask_last_length.
      by apply mask_last_lookup_last.
    + apply last_None in Hlast. subst out. simpl in *. lia.
Qed.

Lemma final_result_long_span_masks_span_end_witness :
  exists σ3,
    final_result (Demo.adapter 12) [77; 77; 77] Demo.heap1
      = Ok ((Demo.adapter 12, [10; 6; 64]), σ3).
Proof.
  destruct (final_result_long_span_masks_span_end (HS := fletcher16_spec)
              Demo.heap0 Demo.heap0 Demo.p Fletcher16.init [] 12
              (Demo.adapter 12) Demo.history [77; 77; 77])
    as (σ2 & h2 & σ3 & out' & Hrun & _ & Hfin & _).
  - reflexivity.
  - reflexivity.
  - reflexivity.
  - repeat constructor.
  - vm_compute. reflexivity.
  - exists σ3.
    assert (Ok (Demo.adapter 12, Demo.heap1) = Ok (Demo.adapter 12, σ2)) as Hσ
      by (rewrite <- Hrun; reflexivity).
    injection Hσ as <-. rewrite Hfin.
    assert (Ok ((Demo.adapter 12, [10; 6; 64]), Demo.heap0)
            = Ok ((Demo.adapter 12, out'), σ3)) as Hout
      by (rewrite <- Hfin; reflexivity).
    by injection Hout as <- <-.
Defined.

(** ** Truncation bit by bit *)

Lemma bits_accounting bits :
  1 <= bits ->
  bits = 8 * (ceil_div8 bits - 1) + ((bits - 1) mod 8 + 1).
Proof. intros Hb. unfold ceil_div8. Z.div_mod_to_equations. lia. Qed.

Section TruncationBits.

Variables (bits : Z) (d : list Z).
Hypothesis Hbits : 1 <= bits.
Hypothesis Hfits : bits <= 8 * Z.of_nat (length d).

(** Bit [b] of byte [j], counted from the most significant bit of byte 0,
    is bit number [8 * j + (7 - b)] of the digest. *)
Lemma truncated_testbit (j : nat) (b : Z) x y :
  d !! j = Some x -> truncated bits d !! j = Some y ->
  0 <= b < 8 ->
  Z.testbit y b =
    if 8 * Z.of_nat j + (7 - b) <? bits then Z.testbit x b else false.
Proof.
  intros Hx Hy Hb.
  pose proof (truncated_count bits d Hbits Hfits) as Hn.
  pose proof (truncated_len bits d Hbits Hfits) as Hlen.
  pose proof (bits_accounting bits Hbits) as Hacc.
  pose proof (Z.mod_pos_bound (bits - 1) 8 ltac:(lia)) as Hm.
  assert (j < Z.to_nat (ceil_div8 bits))%nat as Hj.
  { apply lookup_lt_Some in Hy. lia. }
  destruct (decide (S j < Z.to_nat (ceil_div8 bits))%nat) as [Hlt|Hlast].
  - rewrite (truncated_lookup_lt bits d Hbits Hfits j Hlt), Hx in Hy.
    injection Hy as <-.
    destruct (Z.ltb_spec (8 * Z.of_nat j + (7 - b)) bits); [done|lia].
  - assert (j = Nat.pred (Z.to_nat (ceil_div8 bits))) as -> by lia.
    destruct (truncated_lookup_last bits d Hbits Hfits) as (x' & Hx' & Hy').
    rewrite Hx in Hx'. injection Hx' as <-.
    rewrite Hy in Hy'. injection Hy' as ->.
    rewrite Z.land_spec, <- bitmask_spec_mask, bitmask_testbit by lia.
    destruct (Z.ltb_spec (8 * Z.of_nat (Nat.pred (Z.to_nat (ceil_div8 bits)))
                          + (7 - b)) bits).
    + rewrite bool_decide_eq_true_2 by lia. apply andb_true_r.
    + rewrite bool_decide_eq_false_2 by lia. apply andb_false_r.
Qed.

(** The bytes returned are bytes when the digest's are. *)
Lemma truncated_uint8 : Forall is_uint8 d -> Forall is_uint8 (truncated bits d).
Proof.
  intros Hd. pose proof (truncated_count bits d Hbits Hfits) as Hn.
  unfold truncated.
  assert (Forall is_uint8 (take (Z.to_nat (ceil_div8 bits)) d)) as Ht
    by by apply Forall_take.
  destruct (take (Z.to_nat (ceil_div8 bits)) d) as [|x l _] using rev_ind;
    [done|].
  rewrite mask_last_snoc. apply Forall_app in Ht as [Hl Hx].
  apply Forall_app. split; [done|]. apply Forall_singleton.
  apply Forall_inv in Hx. unfold is_uint8 in *.
  split; [apply Z.land_nonneg; lia|].
  pose proof (Z.mod_pos_bound (bits - 1) 8 ltac:(lia)) as Hm.
  rewrite <- bitmask_spec_mask by lia.
  rewrite <- (land_mask_uint8 x) by apply bitmask_uint8.
  unfold to_uint8. apply Z.mod_pos_bound. lia.
Qed.

End TruncationBits.

(** X6: [final_result] returns the first [bits] bits of the wrapped hash's
    digest, most significant bit of byte 0 first, and zeros after them: bit
    [b] of returned byte [j] is bit [b] of digest byte [j] when its
    position [8 * j + (7 - b)] is below [bits], and 0 otherwise. *)
Theorem final_result_keeps_first_bits
    {H : Type} {HF : HashFunction H} {AL : Allocator}
    {olen : Z} {digest : list Z -> list Z} {absorbed : H -> list Z -> Prop}
    {HS : HashFunctionSpec olen digest absorbed}
    (σ0 σ1 : gmap loc H) (p : loc) (h0 : H) (msg0 : list Z) (bits : Z)
    (this : Truncated_Hash) (cs : list call) (out : list Z) :
  σ0 !! p = Some h0 -> absorbed h0 msg0 ->
  Truncated_Hash_new (Some p) bits σ0 = Ok (this, σ1) ->
  Forall (call_ok this) cs ->
  Z.of_nat (length out) = output_length this ->
  exists σ2 h2 σ3 out',
    do_calls this cs σ1 = Ok (this, σ2) /\
    σ2 !! m_hash this = Some h2 /\
    final_result this out σ2 = Ok ((this, out'), σ3) /\
    let native := fst (hf_final_result h2) in
    Z.of_nat (length out') = output_length this /\
    forall (j : nat) (b : Z),
      (j < length out')%nat -> 0 <= b < 8 ->
      exists x y, native !! j = Some x /\ out' !! j = Some y /\
        Z.testbit y b =
          if 8 * Z.of_nat j + (7 - b) <? bits then Z.testbit x b else false.
Proof.
  intros Hp Ha Hnew Hcs Hout.
  destruct (constructed_history _ _ _ _ _ _ _ _ Hp Ha Hnew Hcs)
    as (_ & _ & Hbits & σ2 & Hrun & Hinv & _).
  destruct (final_result_inv_ok _ _ _ out Hinv Hout)
    as (h2 & Hp2 & Hd & Hfin & _).
  destruct (adapter_output_length _ _ _ Hinv) as [Hceil _].
  destruct Hinv as (_ & Hb & _). rewrite Hbits in *.
  exists σ2, h2. do 2 eexists.
  split; [done|]. split; [done|]. split; [exact Hfin|].
  rewrite Hd. simpl.
  set (d := digest (fold_left absorbed_after cs msg0)).
  assert (1 <= bits) as Hb1 by lia.
  assert (bits <= 8 * Z.of_nat (length d)) as Hb2
    by (subst d; rewrite hs_digest_length; lia).
  pose proof (truncated_count bits d Hb1 Hb2) as Hn.
  pose proof (truncated_len bits d Hb1 Hb2) as Hlen.
  split; [lia|]. intros j b Hj Hbit.
  destruct (lookup_lt_is_Some_2 d j) as [x Hx]; [lia|].
  destruct (lookup_lt_is_Some_2 (truncated bits d) j) as [y Hy]; [lia|].
  exists x, y. split; [done|]. split; [done|].
  by apply (truncated_testbit bits d Hb1 Hb2 j b).
Qed.

Lemma final_result_keeps_first_bits_witness :
  exists σ3 out',
    final_result (Demo.adapter 12) [77; 77] Demo.heap1
      = Ok ((Demo.adapter 12, out'), σ3) /\
    length out' = 2%nat.
Proof.
  destruct (final_result_keeps_first_bits (HS := fletcher16_spec)
              Demo.heap0 Demo.heap0 Demo.p Fletcher16.init [] 12
              (Demo.adapter 12) Demo.history [77; 77])
    as (σ2 & h2 & σ3 & out' & Hrun & _ & Hfin & Hlen & _).
  - reflexivity.
  - reflexivity.
  - reflexivity.
  - repeat constructor.
  - reflexivity.
  - exists σ3, out'.
    assert (Ok (Demo.adapter 12, Demo.heap1) = Ok (Demo.adapter 12, σ2)) as Hσ
      by (rewrite <- Hrun; reflexivity).
    injection Hσ as <-. split; [exact Hfin|].
    change (output_length (Demo.adapter 12)) with 2 in Hlen. lia.
Defined.

(** X7: every byte [final_result] returns is a byte value, the wrapped hash
    producing byte values. *)
Theorem final_result_returns_bytes
    {H : Type} {HF : HashFunction H} {AL : Allocator}
    {olen : Z} {digest : list Z -> list Z} {absorbed : H -> list Z -> Prop}
    {HS : HashFunctionSpec olen digest absorbed}
    (σ0 σ1 : gmap loc H) (p : loc) (h0 : H) (msg0 : list Z) (bits : Z)
    (this : Truncated_Hash) (cs : list call) (out : list Z) :
  σ0 !! p = Some h0 -> absorbed h0 msg0 ->
  Truncated_Hash_new (Some p) bits σ0 = Ok (this, σ1) ->
  Forall (call_ok this) cs ->
  Z.of_nat (length out) = output_length this ->
  exists σ2 σ3 out',
    do_calls this cs σ1 = Ok (this, σ2) /\
    final_result this out σ2 = Ok ((this, out'), σ3) /\
    Forall is_uint8 out'.
Proof.
  intros Hp Ha Hnew Hcs Hout.
  destruct (constructed_history _ _ _ _ _ _ _ _ Hp Ha Hnew Hcs)
    as (_ & _ & Hbits & σ2 & Hrun & Hinv & _).
  destruct (final_result_inv_ok _ _ _ out Hinv Hout)
    as (h2 & Hp2 & Hd & Hfin & _).
  destruct Hinv as (_ & Hb & _). rewrite Hbits in *.
  exists σ2. do 2 eexists. split; [done|]. split; [exact Hfin|].
  apply truncated_uint8; [lia| |apply hs_digest_uint8].
  rewrite hs_digest_length. lia.
Qed.

Lemma final_result_returns_bytes_witness :
  exists σ3 out',
    final_result (Demo.adapter 12) [77; 77] Demo.heap1
      = Ok ((Demo.adapter 12, out'), σ3) /\
    Forall is_uint8 out'.
Proof.
  destruct (final_result_returns_bytes (HS := fletcher16_spec)
              Demo.heap0 Demo.heap0 Demo.p Fletcher16.init [] 12
              (Demo.adapter 12) Demo.history [77; 77])
    as (σ2 & σ3 & out' & Hrun & Hfin & Hbytes).
  - reflexivity.
  - reflexivity.
  - reflexivity.
  - repeat constructor.
  - reflexivity.
  - exists σ3, out'.
    assert (Ok (Demo.adapter 12, Demo.heap1) = Ok (Demo.adapter 12, σ2)) as Hσ
      by (rewrite <- Hrun; reflexivity).
    injection Hσ as <-. by split.
Defined.

(** ** How [output_length] and [bits_in_last_byte] fit together *)

(** X8: for every [size_t] value [bits_in_last_byte] lies between 1 and 8, so
    the shift count [8 - bits_in_last_byte] of the mask is between 0 and 7;
    and whenever [m_output_bits + 7] does not wrap, the bytes before the
    last one and the bits of the last one add up to [m_output_bits]. *)
Theorem output_length_accounts_for_bits (this : Truncated_Hash) :
  SizeT.valid (m_output_bits this) ->
  1 <= bits_in_last_byte (m_output_bits this) <= 8 /\
  (1 <= m_output_bits this <= SizeT.max - 7 ->
   m_output_bits this =
     8 * (output_length this - 1) + bits_in_last_byte (m_output_bits this)).
Proof.
  intros Hv. unfold SizeT.valid in Hv. split.
  - destruct (Z.eq_dec (m_output_bits this) 0) as [->|Hne].
    + by vm_compute.
    + apply bits_in_last_byte_range. lia.
  - intros Hb. rewrite output_length_in_range by lia.
    rewrite bits_in_last_byte_eq by lia.
    apply bits_accounting. lia.
Qed.

Lemma output_length_accounts_for_bits_witness :
  12 = 8 * (output_length (Demo.adapter 12) - 1)
       + bits_in_last_byte (m_output_bits (Demo.adapter 12)).
Proof.
  destruct (output_length_accounts_for_bits (Demo.adapter 12)) as [_ Hacc].
  - unfold SizeT.valid. rewrite size_modulus_eq. simpl. lia.
  - apply Hacc. rewrite size_max_eq. simpl. lia.
Defined.

(** ** Shorter and longer truncations of one digest *)

Lemma spec_mask_nested k1 k2 :
  1 <= k1 <= k2 -> k2 <= 8 ->
  Z.land (spec_mask k2) (spec_mask k1) = spec_mask k1.
Proof.
  intros Hk1 Hk2. assert (1 <= k2 <= 8) as Hk by lia.
  revert k2 Hk k1 Hk1 Hk2.
  apply (small_cases (fun k2 => forall k1, 1 <= k1 <= k2 -> k2 <= 8 ->
           Z.land (spec_mask k2) (spec_mask k1) = spec_mask k1));
    intros k1 Hk1 _;
    (assert (1 <= k1 <= 8) as Hk by lia); revert k1 Hk Hk1;
    apply (small_cases (fun k1 => 1 <= k1 <= _ ->
             Z.land (spec_mask _) (spec_mask k1) = spec_mask k1));
    intros Hk1; first [reflexivity | lia].
Qed.

Lemma truncated_truncated b1 b2 (d : list Z) :
  1 <= b1 <= b2 -> b2 <= 8 * Z.of_nat (length d) ->
  truncated b1 (truncated b2 d) = truncated b1 d.
Proof.
  intros Hb1 Hb2.
  assert (1 <= b2) as Hb2' by lia.
  assert (b1 <= 8 * Z.of_nat (length d)) as Hb1' by lia.
  pose proof (truncated_count b2 d Hb2' Hb2) as Hn2.
  pose proof (truncated_count b1 d (proj1 Hb1) Hb1') as Hn1.
  pose proof (bits_accounting b1 (proj1 Hb1)) as Hacc1.
  pose proof (bits_accounting b2 Hb2') as Hacc2.
  pose proof (Z.mod_pos_bound (b1 - 1) 8 ltac:(lia)) as Hm1.
  pose proof (Z.mod_pos_bound (b2 - 1) 8 ltac:(lia)) as Hm2.
  assert (ceil_div8 b1 <= ceil_div8 b2) as Hmono
    by (unfold ceil_div8; Z.div_mod_to_equations; lia).
  unfold truncated at 2.
  set (n1 := Z.to_nat (ceil_div8 b1)) in *.
  set (n2 := Z.to_nat (ceil_div8 b2)) in *.
  assert (length (take n2 d) = n2) as Hlen2 by (rewrite length_take; lia).
  assert (take n1 d = take n1 (take n2 d)) as Htt
    by (rewrite take_take; f_equal; lia).
  unfold truncated. fold n1. rewrite Htt.
  destruct (take n2 d) as [|x l _] using rev_ind; [simpl in *; lia|].
  rewrite length_app in Hlen2. simpl in Hlen2.
  rewrite mask_last_snoc.
  destruct (decide (n1 <= length l)%nat) as [Hle|Hgt].
  - by rewrite !take_app_le by lia.
  - rewrite !take_ge by (rewrite length_app; simpl; lia).
    rewrite !mask_last_snoc. f_equal. f_equal.
    rewrite <- Z.land_assoc. f_equal. apply spec_mask_nested; lia.
Qed.

(** X9: two adapters on two hash objects of one kind that absorbed the same
    bytes, one truncating to [b1] bits and one to [b2 >= b1] bits: the
    shorter result is the longer one cut again to [b1] bits.  Bit by bit,
    the shorter result has the first [b1] bits of the longer one and zeros
    after them. *)
Theorem shorter_truncation_is_prefix
    {H : Type} {HF : HashFunction H} {AL : Allocator}
    {olen : Z} {digest : list Z -> list Z} {absorbed : H -> list Z -> Prop}
    {HS : HashFunctionSpec olen digest absorbed}
    (σa σa1 σb σb1 : gmap loc H) (pa pb : loc) (ha hb : H) (msg0 : list Z)
    (b1 b2 : Z) (ta tb : Truncated_Hash) (chunks : list (list Z))
    (out_a out_b : list Z) :
  σa !! pa = Some ha -> absorbed ha msg0 ->
  σb !! pb = Some hb -> absorbed hb msg0 ->
  Truncated_Hash_new (Some pa) b1 σa = Ok (ta, σa1) ->
  Truncated_Hash_new (Some pb) b2 σb = Ok (tb, σb1) ->
  b1 <= b2 ->
  Z.of_nat (length out_a) = output_length ta ->
  Z.of_nat (length out_b) = output_length tb ->
  exists σa2 σb2 ra rb σa3 σb3,
    feed ta chunks σa1 = Ok (tt, σa2) /\
    feed tb chunks σb1 = Ok (tt, σb2) /\
    final_result ta out_a σa2 = Ok ((ta, ra), σa3) /\
    final_result tb out_b σb2 = Ok ((tb, rb), σb3) /\
    ra = truncated b1 rb /\
    (length ra <= length rb)%nat /\
    forall (j : nat) (b : Z) x y,
      rb !! j = Some x -> ra !! j = Some y -> 0 <= b < 8 ->
      Z.testbit y b =
        if 8 * Z.of_nat j + (7 - b) <? b1 then Z.testbit x b else false.
Proof.
  intros Hpa Ha Hpb Hb Hnew_a Hnew_b Hle Hout_a Hout_b.
  destruct (Truncated_Hash_new_inv _ _ _ _ _ _ _ Hpa Ha Hnew_a)
    as (_ & _ & Hbits_a & Hinv_a).
  destruct (Truncated_Hash_new_inv _ _ _ _ _ _ _ Hpb Hb Hnew_b)
    as (_ & _ & Hbits_b & Hinv_b).
  destruct (feed_inv_ok chunks _ _ _ Hinv_a) as (σa2 & Hfeed_a & Hinv_a2 & _).
  destruct (feed_inv_ok chunks _ _ _ Hinv_b) as (σb2 & Hfeed_b & Hinv_b2 & _).
  destruct (final_result_inv_ok _ _ _ out_a Hinv_a2 Hout_a)
    as (? & _ & _ & Hfin_a & _).
  destruct (final_result_inv_ok _ _ _ out_b Hinv_b2 Hout_b)
    as (? & _ & _ & Hfin_b & _).
  rewrite Hbits_a in Hfin_a. rewrite Hbits_b in Hfin_b.
  destruct Hinv_a as (_ & Hra & _). destruct Hinv_b as (_ & Hrb & _).
  rewrite Hbits_a in Hra. rewrite Hbits_b in Hrb.
  set (d := digest (msg0 ++ concat chunks)) in *.
  assert (Z.of_nat (length d) = olen) as Hd by apply hs_digest_length.
  assert (b2 <= 8 * Z.of_nat (length d)) as Hfit2 by lia.
  pose proof (truncated_len b2 d ltac:(lia) Hfit2) as Hlen2.
  pose proof (truncated_count b2 d ltac:(lia) Hfit2) as Hn2.
  assert (b1 <= 8 * Z.of_nat (length (truncated b2 d))) as Hfit1.
  { rewrite Hlen2. pose proof (bits_accounting b2 ltac:(lia)).
    pose proof (Z.mod_pos_bound (b2 - 1) 8 ltac:(lia)). lia. }
  assert (truncated b1 d = truncated b1 (truncated b2 d)) as Heq
    by (symmetry; apply truncated_truncated; lia).
  exists σa2, σb2, (truncated b1 d), (truncated b2 d). do 2 eexists.
  split; [done|]. split; [done|]. split; [exact Hfin_a|].
  split; [exact Hfin_b|]. split; [done|]. split.
  - rewrite Heq, (truncated_len b1 _ ltac:(lia) Hfit1).
    pose proof (truncated_count b1 _ ltac:(lia) Hfit1). lia.
  - intros j b u v Hu Hv Hbit. rewrite Heq in Hv.
    by apply (truncated_testbit b1 (truncated b2 d) ltac:(lia) Hfit1 j b).
Qed.

Lemma shorter_truncation_is_prefix_witness :
  exists ra rb σa3 σb3,
    final_result (Demo.adapter 5) [77] Demo.heap1
      = Ok ((Demo.adapter 5, ra), σa3) /\
    final_result (Demo.adapter_q 12) [77; 77] Demo.heap_q1
      = Ok ((Demo.adapter_q 12, rb), σb3) /\
    ra = truncated 5 rb.
Proof.
  destruct (shorter_truncation_is_prefix (HS := fletcher16_spec)
              Demo.heap0 Demo.heap0 Demo.heap_q0 Demo.heap_q0 Demo.p Demo.q
              Fletcher16.init Fletcher16.init [] 5 12
              (Demo.adapter 5) (Demo.adapter_q 12) [[1; 2]; [3]] [77] [77; 77])
    as (σa2 & σb2 & ra & rb & σa3 & σb3 & Hfa & Hfb & Hra & Hrb & Heq & _).
  - reflexivity.
  - reflexivity.
  - reflexivity.
  - reflexivity.
  - reflexivity.
  - reflexivity.
  - lia.
  - reflexivity.
  - reflexivity.
  - exists ra, rb, σa3, σb3.
    assert (Ok (tt, Demo.heap1) = Ok (tt, σa2)) as Ha2
      by (rewrite <- Hfa; reflexivity).
    assert (Ok (tt, Demo.heap_q1) = Ok (tt, σb2)) as Hb2
      by (rewrite <- Hfb; reflexivity).
    injection Ha2 as <-. injection Hb2 as <-. by repeat split.
Defined.

(** ** [name] *)

Lemma list_ascii_append (s1 s2 : string) :
  list_ascii_of_string (s1 +:+ s2)
  = list_ascii_of_string s1 ++ list_ascii_of_string s2.
Proof. induction s1 as [|c s1 IH]; simpl; [done|]. by rewrite IH. Qed.

Lemma append_inj_r (s1 s2 t : string) : s1 +:+ t = s2 +:+ t -> s1 = s2.
Proof.
  intros Heq%(f_equal list_ascii_of_string).
  rewrite !list_ascii_append in Heq. apply app_inv_tail in Heq.
  apply (f_equal string_of_list_ascii) in Heq.
  by rewrite !string_of_list_ascii_of_string in Heq.
Qed.

Lemma fmt_Truncated_inj inner b1 b2 :
  fmt_Truncated inner b1 = fmt_Truncated inner b2 -> b1 = b2.
Proof.
  unfold fmt_Truncated. intros Heq.
  do 3 apply String.app_inj in Heq.
  apply append_inj_r in Heq. by apply pretty_Z_inj in Heq.
Qed.

(** X10: [name] reads the wrapped object's name and changes nothing; over
    hash objects of one name, two adapters have the same name exactly when
    they have the same bit length. *)
Theorem name_identifies_bits
    {H : Type} {HF : HashFunction H}
    (t1 t2 : Truncated_Hash) (σ1 σ2 : gmap loc H) (h1 h2 : H) :
  σ1 !! m_hash t1 = Some h1 ->
  σ2 !! m_hash t2 = Some h2 ->
  hf_name h1 = hf_name h2 ->
  exists s1 s2,
    name t1 σ1 = Ok (s1, σ1) /\
    name t2 σ2 = Ok (s2, σ2) /\
    s1 = fmt_Truncated (hf_name h1) (m_output_bits t1) /\
    (s1 = s2 <-> m_output_bits t1 = m_output_bits t2).
Proof.
  intros Hp1 Hp2 Hname.
  assert (forall t (σ : gmap loc H) h, σ !! m_hash t = Some h ->
            name t σ = Ok (fmt_Truncated (hf_name h) (m_output_bits t), σ))
    as Hrun.
  { intros t σ h Hp. unfold name, call_name.
    by rewrite (bind_ok _ _ _ _ _
                  (bind_ok _ _ _ _ _ (deref_ok _ _ _ Hp))). }
  do 2 eexists. split; [by apply Hrun|]. split; [by apply Hrun|].
  split; [done|]. rewrite <- Hname. split.
  - apply fmt_Truncated_inj.
  - by intros ->.
Qed.

Lemma name_identifies_bits_witness :
  name (Demo.adapter 12) Demo.heap1
    = Ok ("Truncated(Fletcher-16,12)"%string, Demo.heap1) /\
  name (Demo.adapter 12) Demo.heap1 <> name (Demo.adapter 16) Demo.heap1.
Proof.
  destruct (name_identifies_bits (Demo.adapter 12) (Demo.adapter 16)
              Demo.heap1 Demo.heap1
              (Fletcher16.update Fletcher16.init [1; 2; 3])
              (Fletcher16.update Fletcher16.init [1; 2; 3]))
    as (s1 & s2 & Hn1 & Hn2 & -> & Hiff).
  - reflexivity.
  - reflexivity.
  - reflexivity.
  - split; [exact Hn1|]. rewrite Hn1, Hn2.
    intros [= Heq]. apply Hiff in Heq. discriminate.
Defined.

(** ** [as_span] *)

(** X11: [as_span] loses nothing: it yields as many bytes as the string has
    characters, each a [uint8_t] value, and different strings give
    different byte sequences. *)
Theorem as_span_lossless (s t : string) :
  length (as_span s) = String.length s /\
  Forall is_uint8 (as_span s) /\
  (as_span s = as_span t -> s = t).
Proof.
  unfold as_span. split; [|split].
  - rewrite length_fmap. induction s as [|c s IH]; simpl; [done|].
    by rewrite IH.
  - apply Forall_fmap, Forall_forall. intros c _. unfold is_uint8. simpl.
    pose proof (Ascii.N_ascii_bounded c). lia.
  - intros Heq.
    assert (Inj (=) (=) (fun c => Z.of_N (Ascii.N_of_ascii c))) as Hinj.
    { intros c1 c2 Hc%N2Z.inj.
      by rewrite <- (Ascii.ascii_N_embedding c1), <- (Ascii.ascii_N_embedding c2), Hc. }
    apply (inj (fmap _)) in Heq.
    apply (f_equal string_of_list_ascii) in Heq.
    by rewrite !string_of_list_ascii_of_string in Heq.
Qed.
